(** * Watchdog: watchdogs and their DogHouse registry

    A shallow embedding of [src/watchdog/watchdog.py].

    - Watchdog objects ([TimeDog], [EventDog]) are records; their methods are
      functions on the record, with the reading of [time.time()] passed in
      where the method reads the clock.
    - Python objects have identity and are shared between the registry and
      its callers, so the registry stores references into an object store.
    - [self.dogs] is a Python [dict]: it iterates in insertion order, so it
      is an association list that keeps that order.
    - The [DogHouse] methods run in a small state-and-exception monad over
      the clock, the object store, the registry and the trace of what was
      sent to the logger and to the recovery callback.
    - Times and timeouts are rationals ([Q]): every finite float is one.
      The subtraction in [TimeDog.should_bark] is that of IEEE 754 doubles:
      the exact difference rounded to the nearest double, a tie to the even
      one, with overflow to an infinity; comparisons are exact, as Python's
      are between floats and between a float and an integer.
    - Names are [string]s; a name with characters outside ASCII is given by
      its UTF-8 bytes. [lower] is [str.lower] on ASCII names. [str.lower] and
      the recovery callback are code from outside the repository: the methods
      that use them are also given with the lower-casing function
      ([Keyed]) and with the effect of the callback ([Recovering]) as a
      parameter, and what is proved of those holds whatever the two do. *)

From Stdlib Require Import Ascii String QArith Qround Qpower Lqa SpecFloat.
From stdpp Require Import base list strings.

Local Open Scope string_scope.
Local Open Scope list_scope.

(** ** Python values returned by [should_bark] *)

(** [should_bark] returns the value of a comparison when the watchdog is
    active and falls off the end of the function, returning [None], when it is
    not. *)
Inductive pyval : Type :=
| PyNone
| PyBool (b : bool).

(** Truth value of a Python object, as tested by [if]. *)
Definition truthy (v : pyval) : bool :=
  match v with
  | PyNone => false
  | PyBool b => b
  end.

(** ** Strings: [str.lower] *)

Definition is_upper (c : ascii) : bool :=
  (65 <=? nat_of_ascii c)%nat && (nat_of_ascii c <=? 90)%nat.

Definition lower_ascii (c : ascii) : ascii :=
  if is_upper c then ascii_of_nat (nat_of_ascii c + 32) else c.

(** [key.lower()] *)
Fixpoint lower (s : string) : string :=
  match s with
  | EmptyString => EmptyString
  | String c s' => String (lower_ascii c) (lower s')
  end.

(** Two characters are equal up to letter case when they are the same
    character, or one is an upper-case letter and the other is the
    lower-case letter 32 positions later. *)
Definition ascii_same_upto_case (a b : ascii) : bool :=
  Ascii.eqb a b
  || (is_upper a && (nat_of_ascii b =? nat_of_ascii a + 32)%nat)
  || (is_upper b && (nat_of_ascii a =? nat_of_ascii b + 32)%nat).

(** Two names are equal up to letter case when they have the same length and
    their characters are pairwise equal up to letter case. This definition
    does not mention [lower]. *)
Fixpoint same_upto_case (a b : string) : bool :=
  match a, b with
  | EmptyString, EmptyString => true
  | String x a', String y b' => ascii_same_upto_case x y && same_upto_case a' b'
  | _, _ => false
  end.

(** ** Numbers *)

(** [x > y] on exact rationals, as a boolean. *)
Definition Qgtb (x y : Q) : bool := negb (Qle_bool x y).

(** *** Double-precision subtraction *)

(** [2^e] as a rational, for any integer [e]. *)
Definition pow2 (e : Z) : Q := (2 ^ e)%Q.
Arguments pow2 : simpl never.

(** Rounding to the nearest integer, a tie to the even one. *)
Definition rne (x : Q) : Z :=
  let f := Qfloor x in
  match (x - inject_Z f ?= 1 # 2)%Q with
  | Lt => f
  | Gt => (f + 1)%Z
  | Eq => if Z.even f then f else (f + 1)%Z
  end.

(** For [x > 0], the [k] with [2^k <= x < 2^(k+1)]. *)
Definition qlog2 (x : Q) : Z :=
  let k := (Z.log2 (Qnum x) - Z.log2 (Zpos (Qden x)))%Z in
  if Qle_bool (pow2 k) x then k else (k - 1)%Z.

(** The exponent of the last place of the doubles around [x > 0]: 53
    significant bits, and no exponent below that of the subnormal numbers. *)
Definition ulp_exp (x : Q) : Z := Z.max (qlog2 x - 52) (-1074).

(** [x > 0] rounded to the nearest multiple of [2^(ulp_exp x)]. *)
Definition round_pos (x : Q) : Q :=
  (inject_Z (rne (x * pow2 (- ulp_exp x))) * pow2 (ulp_exp x))%Q.

(** Rounding to nearest with 53 bits, as if the exponent had no upper
    bound. *)
Definition round_unbounded (x : Q) : Q :=
  match Qnum x with
  | Z0 => 0%Q
  | Zpos _ => round_pos x
  | Zneg _ => (- round_pos (- x))%Q
  end.

(** The result of an operation on doubles that are numbers. *)
Inductive double : Type :=
| Finite (q : Q)
| PlusInfinity
| MinusInfinity.

(** Rounding to the nearest double: a result of magnitude [2^1024] or more
    is an infinity. *)
Definition round64 (x : Q) : double :=
  let r := round_unbounded x in
  if Qle_bool (pow2 1024) r then PlusInfinity
  else if Qle_bool r (- pow2 1024) then MinusInfinity
  else Finite r.

(** [x - y] on doubles [x] and [y]. *)
Definition fsub (x y : Q) : double := round64 (x - y).

(** [d > t], where [t] is a float or an integer: Python compares the two
    values exactly. *)
Definition double_gt (d : double) (t : Q) : bool :=
  match d with
  | Finite q => Qgtb q t
  | PlusInfinity => true
  | MinusInfinity => false
  end.

(** The rationals that are doubles. *)
Definition representable (q : Q) : Prop :=
  exists m e : Z,
    (Z.abs m < 2 ^ 53)%Z /\ (-1074 <= e <= 971)%Z
    /\ (q == inject_Z m * pow2 e)%Q.

(** The value of a finite float of the Standard Library's specification of
    IEEE 754 arithmetic, to compare [fsub] with its subtraction. *)
Definition SF2Q (f : spec_float) : Q :=
  match f with
  | S754_finite s m e =>
      ((if s then -1 else 1) * inject_Z (Zpos m) * pow2 e)%Q
  | _ => 0%Q
  end.

(** ** The watchdog classes *)

(** [class TimeDog(Watchdog)]: the attributes set by [Watchdog.__init__]
    ([name], [active]) and by [TimeDog.__init__] ([timeout_s], [last_feed]). *)
Record TimeDog : Type := mkTimeDog {
  td_name : string;
  td_active : bool;
  timeout_s : Q;
  last_feed : Q
}.

(** [class EventDog(Watchdog)]: [name], [active], [max_events],
    [current_events]. Python integers are unbounded. *)
Record EventDog : Type := mkEventDog {
  ed_name : string;
  ed_active : bool;
  max_events : Z;
  current_events : Z
}.

Module TimeDog_.

(** [TimeDog.__init__(name, timeout_s)]; [now] is the reading of
    [time.time()] taken by the constructor. *)
Definition init (name : string) (timeout : Q) (now : Q) : TimeDog :=
  {| td_name := name; td_active := false;
     timeout_s := timeout; last_feed := now |}.

(** [self.last_feed = time.time()] *)
Definition feed (now : Q) (self : TimeDog) : TimeDog :=
  {| td_name := td_name self; td_active := td_active self;
     timeout_s := timeout_s self; last_feed := now |}.

(** [pass] *)
Definition starve (self : TimeDog) : TimeDog := self.

Definition set_active (b : bool) (self : TimeDog) : TimeDog :=
  {| td_name := td_name self; td_active := b;
     timeout_s := timeout_s self; last_feed := last_feed self |}.

(** [if self.active: return now - self.last_feed > self.timeout_s] *)
Definition should_bark (self : TimeDog) (now : Q) : pyval :=
  if td_active self
  then PyBool (double_gt (fsub now (last_feed self)) (timeout_s self))
  else PyNone.

End TimeDog_.

Module EventDog_.

(** [EventDog.__init__(name, max_events)] *)
Definition init (name : string) (max : Z) : EventDog :=
  {| ed_name := name; ed_active := false;
     max_events := max; current_events := 0 |}.

(** [self.current_events = 0] *)
Definition feed (self : EventDog) : EventDog :=
  {| ed_name := ed_name self; ed_active := ed_active self;
     max_events := max_events self; current_events := 0 |}.

(** [self.current_events += 1] *)
Definition starve (self : EventDog) : EventDog :=
  {| ed_name := ed_name self; ed_active := ed_active self;
     max_events := max_events self;
     current_events := (current_events self + 1)%Z |}.

Definition set_active (b : bool) (self : EventDog) : EventDog :=
  {| ed_name := ed_name self; ed_active := b;
     max_events := max_events self;
     current_events := current_events self |}.

(** [if self.active: return self.current_events > self.max_events] *)
Definition should_bark (self : EventDog) (_ : Q) : pyval :=
  if ed_active self
  then PyBool (current_events self >? max_events self)%Z
  else PyNone.

End EventDog_.

(** An instance of one of the two concrete subclasses of [Watchdog]. The
    methods below dispatch on the class of the instance, as a Python method
    call does. *)
Inductive Watchdog : Type :=
| ATimeDog (d : TimeDog)
| AnEventDog (d : EventDog).

Definition name (w : Watchdog) : string :=
  match w with
  | ATimeDog d => td_name d
  | AnEventDog d => ed_name d
  end.

Definition active (w : Watchdog) : bool :=
  match w with
  | ATimeDog d => td_active d
  | AnEventDog d => ed_active d
  end.

(** [self.active = b] *)
Definition set_active (b : bool) (w : Watchdog) : Watchdog :=
  match w with
  | ATimeDog d => ATimeDog (TimeDog_.set_active b d)
  | AnEventDog d => AnEventDog (EventDog_.set_active b d)
  end.

(** [w.feed()]; [now] is the reading of [time.time()], which only
    [TimeDog.feed] takes. *)
Definition feed (now : Q) (w : Watchdog) : Watchdog :=
  match w with
  | ATimeDog d => ATimeDog (TimeDog_.feed now d)
  | AnEventDog d => AnEventDog (EventDog_.feed d)
  end.

(** [w.starve()] *)
Definition starve (w : Watchdog) : Watchdog :=
  match w with
  | ATimeDog d => ATimeDog (TimeDog_.starve d)
  | AnEventDog d => AnEventDog (EventDog_.starve d)
  end.

(** [w.should_bark(now)] *)
Definition should_bark (w : Watchdog) (now : Q) : pyval :=
  match w with
  | ATimeDog d => TimeDog_.should_bark d now
  | AnEventDog d => EventDog_.should_bark d now
  end.

(** [Watchdog.send_to_kennel]: [self.active = False] *)
Definition send_to_kennel (w : Watchdog) : Watchdog := set_active false w.

(** [Watchdog.send_to_home]: [self.feed()] and then [self.active = True];
    [now] is the clock reading of the feed. *)
Definition send_to_home (now : Q) (w : Watchdog) : Watchdog :=
  set_active true (feed now w).

(** The condition [if watchdog.should_bark(now):] tests. *)
Definition barks (w : Watchdog) (now : Q) : bool := truthy (should_bark w now).

(** A method call on a watchdog, with the clock reading it takes if any. *)
Inductive call : Type :=
| Feed (now : Q)
| Starve
| SendToKennel
| SendToHome (now : Q).

Definition do_call (c : call) (w : Watchdog) : Watchdog :=
  match c with
  | Feed now => feed now w
  | Starve => starve w
  | SendToKennel => send_to_kennel w
  | SendToHome now => send_to_home now w
  end.

(** The calls of [cs], first to last. *)
Definition do_calls (cs : list call) (w : Watchdog) : Watchdog :=
  fold_left (fun w c => do_call c w) cs w.


(** ** The object store, the dictionary and the world *)

(** A reference to a watchdog object: [w1 is w2] in Python is equality of
    references here. *)
Definition ref : Type := nat.

(** [self.dogs]: a Python [dict] from names to watchdog objects, in
    insertion order. *)
Definition dict : Type := list (string * ref).

(** [d.get(key)]; [key in d] is [is_Some (dict_get key d)]. *)
Fixpoint dict_get (key : string) (d : dict) : option ref :=
  match d with
  | [] => None
  | (k, v) :: d' => if String.eqb k key then Some v else dict_get key d'
  end.

(** [d[key] = value]: an existing key keeps its position, a new key goes to
    the end. *)
Fixpoint dict_set (key : string) (value : ref) (d : dict) : dict :=
  match d with
  | [] => [(key, value)]
  | (k, v) :: d' =>
      if String.eqb k key then (k, value) :: d'
      else (k, v) :: dict_set key value d'
  end.

(** [del d[key]], for a key that is present. *)
Fixpoint dict_del (key : string) (d : dict) : dict :=
  match d with
  | [] => []
  | (k, v) :: d' =>
      if String.eqb k key then d' else (k, v) :: dict_del key d'
  end.

Inductive level : Type := DEBUG | WARNING | ERROR.

(** What the registry sends out: a call of a logger method, or a call of the
    recovery callback with a watchdog as its argument. *)
Inductive event : Type :=
| Log (lvl : level) (msg : string)
| CallReset (watchdog : ref).

(** The object given as [reset_function]: [None], or some other object,
    which may or may not be callable and has a truth value. *)
Inductive reset_object : Type :=
| ResetNone
| ResetObject (is_callable is_true : bool).

Definition is_None (f : reset_object) : bool :=
  match f with
  | ResetNone => true
  | ResetObject _ _ => false
  end.

Definition callable (f : reset_object) : bool :=
  match f with
  | ResetNone => false
  | ResetObject c _ => c
  end.

Definition truth (f : reset_object) : bool :=
  match f with
  | ResetNone => false
  | ResetObject _ t => t
  end.

Inductive exn : Type :=
| ValueError (msg : string)
| KeyError (key : string)
| AttributeError.

Inductive result (A : Type) : Type :=
| Return (a : A)
| Raise (e : exn).
Arguments Return {A} a.
Arguments Raise {A} e.

(** The state a [DogHouse] method runs in: the clock ([clock n] is what the
    [n]-th call of [time.time()] returns, [reads] counts the calls made so
    far), the object store, the two attributes of the [DogHouse] object that
    the methods use, and the trace of events sent out so far. *)
Record World : Type := mkWorld {
  clock : nat -> Q;
  reads : nat;
  store : list Watchdog;
  dogs : dict;
  _reset_function : reset_object;
  trace : list event
}.

Definition set_reads (n : nat) (s : World) : World :=
  mkWorld (clock s) n (store s) (dogs s) (_reset_function s) (trace s).
Definition set_store (h : list Watchdog) (s : World) : World :=
  mkWorld (clock s) (reads s) h (dogs s) (_reset_function s) (trace s).
Definition set_dogs (d : dict) (s : World) : World :=
  mkWorld (clock s) (reads s) (store s) d (_reset_function s) (trace s).
Definition set_trace (t : list event) (s : World) : World :=
  mkWorld (clock s) (reads s) (store s) (dogs s) (_reset_function s) t.

(** ** The monad of the methods: state and exceptions *)

Definition M (A : Type) : Type := World -> result A * World.

#[global] Instance M_ret : MRet M := fun A a s => (Return a, s).
#[global] Instance M_bind : MBind M := fun A B f m s =>
  match m s with
  | (Return a, s') => f a s'
  | (Raise e, s') => (Raise e, s')
  end.

Definition raise {A : Type} (e : exn) : M A := fun s => (Raise e, s).
Definition gets {A : Type} (f : World -> A) : M A := fun s => (Return (f s), s).
Definition modify (f : World -> World) : M unit := fun s => (Return tt, f s).

(** [time.time()] *)
Definition time_time : M Q :=
  fun s => (Return (clock s (reads s)), set_reads (S (reads s)) s).

(** [self.logger.<lvl>(msg)] *)
Definition log (lvl : level) (msg : string) : M unit :=
  modify (fun s => set_trace (trace s ++ [Log lvl msg]) s).

(** [self._reset_function(watchdog)] *)
Definition call_reset_function (watchdog : ref) : M unit :=
  modify (fun s => set_trace (trace s ++ [CallReset watchdog]) s).

(** A new object; its reference is different from every reference in use. *)
Definition new (w : Watchdog) : M ref :=
  fun s => (Return (length (store s)), set_store (store s ++ [w]) s).

(** The watchdog a reference points to. The registry accepts any value
    through [__setitem__] and [update]; calling a watchdog method on one that
    is not a watchdog raises [AttributeError]. *)
Definition deref (r : ref) : M Watchdog :=
  fun s => match store s !! r with
           | Some w => (Return w, s)
           | None => (Raise AttributeError, s)
           end.

(** Assignment to the attributes of the object [r] points to. *)
Definition assign (r : ref) (w : Watchdog) : M unit :=
  modify (fun s => set_store (<[r := w]> (store s)) s).

(** ** Method calls on a watchdog object in the store *)

Module Obj.

(** [w.feed()]: [TimeDog.feed] reads the clock, [EventDog.feed] does not. *)
Definition feed (self : ref) : M unit :=
  w ← deref self;
  match w with
  | ATimeDog d => now ← time_time; assign self (ATimeDog (TimeDog_.feed now d))
  | AnEventDog d => assign self (AnEventDog (EventDog_.feed d))
  end.

(** [w.starve()] *)
Definition starve (self : ref) : M unit :=
  w ← deref self; assign self (starve w).

(** [w.send_to_kennel()] *)
Definition send_to_kennel (self : ref) : M unit :=
  w ← deref self; assign self (set_active false w).

(** [w.send_to_home()]: [self.feed()], then [self.active = True]. *)
Definition send_to_home (self : ref) : M unit :=
  feed self;;
  w ← deref self; assign self (set_active true w).

(** [w.should_bark(now)] *)
Definition should_bark (self : ref) (now : Q) : M pyval :=
  w ← deref self; mret (should_bark w now).

End Obj.

(** ** The registry: [class DogHouse] *)

Module DogHouse.

(** [DogHouse(reset_function)] with no keyword arguments, on a clock. *)
Definition init (clk : nat -> Q) (reset_function : reset_object) : World :=
  {| clock := clk; reads := 0; store := []; dogs := [];
     _reset_function := reset_function; trace := [] |}.

(** [key.lower()] *)
Definition _keytransform (key : string) : string := lower key.

(** [return self.dogs[self._keytransform(key)]] *)
Definition __getitem__ (key : string) : M ref :=
  d ← gets dogs;
  match dict_get (_keytransform key) d with
  | Some w => mret w
  | None => raise (KeyError (_keytransform key))
  end.

(** [self.dogs[self._keytransform(key)] = value], after a warning. *)
Definition __setitem__ (key : string) (value : ref) : M unit :=
  log WARNING "We recommend adopting a dog instead!";;
  modify (fun s => set_dogs (dict_set (_keytransform key) value (dogs s)) s).

(** [del self.dogs[self._keytransform(key)]] *)
Definition __delitem__ (key : string) : M unit :=
  d ← gets dogs;
  match dict_get (_keytransform key) d with
  | Some _ => modify (set_dogs (dict_del (_keytransform key) d))
  | None => raise (KeyError (_keytransform key))
  end.

(** [iter(self.dogs)]: the keys, in insertion order. *)
Definition __iter__ : M (list string) := gets (fun s => (dogs s).*1).

(** [len(self.dogs)] *)
Definition __len__ : M nat := gets (fun s => length (dogs s)).

(** [update(other, **kwargs)] with a sequence of pairs as [other]: every
    pair goes to [self.dogs] under its key as given. *)
Definition update (other kwargs : list (string * ref)) : M unit :=
  modify (fun s =>
    set_dogs (fold_left (fun d kv => dict_set kv.1 kv.2 d)
                        (other ++ kwargs) (dogs s)) s).

(** [self.dogs.setdefault(name, w)] *)
Definition dogs_setdefault (name : string) (w : ref) : M ref :=
  d ← gets dogs;
  match dict_get name d with
  | Some w' => mret w'
  | None => modify (set_dogs (d ++ [(name, w)]));; mret w
  end.

(** [adopt(name, timeout_s=None, max_events=None)]. The test
    [name in self.dogs] and the lookup [self.dogs.get(name)] that follows it
    are one match on [dict_get]. *)
Definition adopt (name : string) (timeout_s : option Q)
    (max_events : option Z) : M ref :=
  f ← gets _reset_function;
  (if is_None f || negb (callable f)
   then log WARNING "No reset function is set" else mret tt);;
  d ← gets dogs;
  match dict_get name d with
  | Some w =>
      log DEBUG ("Attempted to adopt Watchdog " ++ name ++ " twice!");;
      mret w
  | None =>
      match timeout_s, max_events with
      | Some t, _ =>
          log DEBUG ("Adopted Watchdog " ++ name ++ " (Timedog)");;
          now ← time_time;
          w ← new (ATimeDog (TimeDog_.init name t now));
          dogs_setdefault name w
      | None, Some n =>
          log DEBUG ("Adopted Watchdog " ++ name ++ " (Eventdog)");;
          w ← new (AnEventDog (EventDog_.init name n));
          dogs_setdefault name w
      | None, None => raise (ValueError "Must supply timeout_s or max_events!")
      end
  end.

(** The loop of [check] over [self.dogs.items()], with the [now] that
    [check] captured; leaving the loop by [break] is returning. *)
Fixpoint check_loop (now : Q) (items : list (string * ref)) : M unit :=
  match items with
  | [] => mret tt
  | (name, watchdog) :: rest =>
      b ← Obj.should_bark watchdog now;
      if truthy b then
        log ERROR ("Watchdog " ++ name ++ " has starved!!!");;
        f ← gets _reset_function;
        if truth f && callable f
        then call_reset_function watchdog
        else mret tt
      else check_loop now rest
  end.

(** [check()] *)
Definition check : M unit :=
  now ← time_time;
  items ← gets dogs;
  check_loop now items.

End DogHouse.

(** ** More of [DogHouse]: construction with keywords, [update] from a mapping *)




(** ** The item methods, for any [str.lower] *)

(** [str.lower] is a function of the Python library. The three item methods
    are given here with that function as the parameter [str_lower]; the
    methods of [DogHouse] above are these with [lower], which is [str.lower]
    on ASCII names. *)
Module Keyed.
Section Lower.

Variable str_lower : string -> string.

(** [key.lower()] *)
Definition _keytransform (key : string) : string := str_lower key.

(** [return self.dogs[self._keytransform(key)]] *)
Definition __getitem__ (key : string) : M ref :=
  d ← gets dogs;
  match dict_get (_keytransform key) d with
  | Some w => mret w
  | None => raise (KeyError (_keytransform key))
  end.

(** [self.dogs[self._keytransform(key)] = value], after a warning. *)
Definition __setitem__ (key : string) (value : ref) : M unit :=
  log WARNING "We recommend adopting a dog instead!";;
  modify (fun s => set_dogs (dict_set (_keytransform key) value (dogs s)) s).

(** [del self.dogs[self._keytransform(key)]] *)
Definition __delitem__ (key : string) : M unit :=
  d ← gets dogs;
  match dict_get (_keytransform key) d with
  | Some _ => modify (set_dogs (dict_del (_keytransform key) d))
  | None => raise (KeyError (_keytransform key))
  end.

End Lower.
End Keyed.


(** ** The sweep, for any recovery callback *)

(** The recovery callback is the caller's code: it may change watchdogs and
    the registry, and it may raise. [check] is given here with the effect of
    the call [self._reset_function(watchdog)] as the parameter [call]; the
    [check] of [DogHouse] above is this with a call that only leaves its
    mark in the trace. *)
Module Recovering.
Section Callback.

Variable call : ref -> M unit.

Fixpoint check_loop (now : Q) (items : list (string * ref)) : M unit :=
  match items with
  | [] => mret tt
  | (name, watchdog) :: rest =>
      b ← Obj.should_bark watchdog now;
      if truthy b then
        log ERROR ("Watchdog " ++ name ++ " has starved!!!");;
        f ← gets _reset_function;
        if truth f && callable f
        then call watchdog
        else mret tt
      else check_loop now rest
  end.

(** [check()] *)
Definition check : M unit :=
  now ← time_time;
  items ← gets dogs;
  check_loop now items.

End Callback.
End Recovering.

(** ** Definitions used in the statements *)

(** The number of [starve] calls among [cs]. *)
Fixpoint starve_count (cs : list call) : nat :=
  match cs with
  | [] => 0
  | Starve :: cs' => S (starve_count cs')
  | _ :: cs' => starve_count cs'
  end.

(** What fixes the policy of a watchdog: its class and its threshold. *)
Definition policy (w : Watchdog) : Q + Z :=
  match w with
  | ATimeDog d => inl (timeout_s d)
  | AnEventDog d => inr (max_events d)
  end.

(** The outcome of a method call that returns normally and changes nothing
    but the object [r], which becomes [w']. *)
Definition touches_only (r : ref) (w' : Watchdog) (s : World)
    (out : result unit * World) : Prop :=
  out.1 = Return tt
  /\ store out.2 = <[r := w']> (store s)
  /\ (forall r' : ref, r' <> r -> store out.2 !! r' = store s !! r')
  /\ dogs out.2 = dogs s
  /\ trace out.2 = trace s
  /\ _reset_function out.2 = _reset_function s.

(** What one pass of [check] sends out when it reports the entry
    [(nm, r)]. *)
Definition report (s : World) (nm : string) (r : ref) : list event :=
  Log ERROR ("Watchdog " ++ nm ++ " has starved!!!")
  :: (if truth (_reset_function s) && callable (_reset_function s)
      then [CallReset r] else []).

(** The 256 characters. *)
Definition all_ascii : list ascii := List.map ascii_of_nat (seq 0 256).

(** The world after the first statement of [adopt]: the warning about a
    missing recovery callback has gone to the logger, or nothing changed. *)
Definition warned (s : World) : World :=
  if is_None (_reset_function s) || negb (callable (_reset_function s))
  then set_trace (trace s ++ [Log WARNING "No reset function is set"]) s
  else s.

(** A registry entry whose watchdog does not bark at [now]. *)
Definition quiet (s : World) (now : Q) (kv : string * ref) : Prop :=
  exists w : Watchdog, store s !! kv.2 = Some w /\ barks w now = false.

(** What the pass has done when it hands over to the callback: the clock is
    read and the error is logged. *)
Definition reported (s : World) (nm : string) : World :=
  set_trace (trace s ++ [Log ERROR ("Watchdog " ++ nm ++ " has starved!!!")])
            (set_reads (S (reads s)) s).

(** A clock for the examples: the [n]-th reading is [100 + n] seconds. *)
Definition example_clock (n : nat) : Q := inject_Z (Z.of_nat (100 + n)).

(** * Properties *)

(** ** Names up to letter case *)

Lemma all_ascii_complete (c : ascii) : In c all_ascii.
Proof.
  unfold all_ascii. rewrite <- (ascii_nat_embedding c).
  apply in_map, in_seq. pose proof (nat_ascii_bounded c). lia.
Qed.

Lemma forall_ascii (P : ascii -> bool) :
  forallb P all_ascii = true -> forall c, P c = true.
Proof.
  intros H c. rewrite forallb_forall in H. apply H, all_ascii_complete.
Qed.

Lemma ascii_same_upto_case_lower (a b : ascii) :
  ascii_same_upto_case a b = Ascii.eqb (lower_ascii a) (lower_ascii b).
Proof.
  assert (H : forall x, forallb (fun y => Bool.eqb (ascii_same_upto_case x y)
                          (Ascii.eqb (lower_ascii x) (lower_ascii y)))
                        all_ascii = true).
  { apply (forall_ascii (fun x => forallb _ all_ascii)).
    vm_compute. reflexivity. }
  apply Bool.eqb_prop. exact (forall_ascii _ (H a) b).
Qed.

(** [same_upto_case] is the relation that [lower] decides. *)
Lemma same_upto_case_lower (a b : string) :
  same_upto_case a b = true <-> lower a = lower b.
Proof.
  revert b. induction a as [|x a IH]; intros [|y b]; simpl; try easy.
  rewrite andb_true_iff, ascii_same_upto_case_lower, Ascii.eqb_eq, IH.
  split; [intros [-> ->]; reflexivity | intros [= -> ->]; auto].
Qed.

Lemma same_upto_case_refl (a : string) : same_upto_case a a = true.
Proof. apply same_upto_case_lower. reflexivity. Qed.

(** ** Exact comparison *)

Lemma Qgtb_true (x y : Q) : Qgtb x y = true <-> (y < x)%Q.
Proof.
  unfold Qgtb. rewrite negb_true_iff, <- not_true_iff_false, Qle_bool_iff.
  split; [apply Qnot_le_lt | apply Qlt_not_le].
Qed.

Lemma Qgtb_false (x y : Q) : Qgtb x y = false <-> (x <= y)%Q.
Proof. unfold Qgtb. rewrite negb_false_iff. apply Qle_bool_iff. Qed.

(** ** Rounding to the nearest double *)

Lemma pow2_pos (e : Z) : (0 < pow2 e)%Q.
Proof. apply Qpower_0_lt. reflexivity. Qed.

Lemma pow2_add (a b : Z) : (pow2 (a + b) == pow2 a * pow2 b)%Q.
Proof. apply Qpower_plus. discriminate. Qed.

Lemma pow2_le (a b : Z) : (a <= b)%Z -> (pow2 a <= pow2 b)%Q.
Proof. intros H. apply Qpower_le_compat_l; [exact H | discriminate]. Qed.

Lemma pow2_lt_inv (a b : Z) : (pow2 a < pow2 b)%Q -> (a < b)%Z.
Proof. intros H. apply (Qpower_lt_compat_l_inv 2); [exact H | reflexivity]. Qed.

Lemma pow2_Z (n : Z) : (0 <= n)%Z -> (pow2 n == inject_Z (2 ^ n))%Q.
Proof. intros H. unfold pow2. rewrite Zpower_Qpower by exact H. reflexivity. Qed.

Lemma pow2_cancel (e : Z) : (pow2 (- e) * pow2 e == 1)%Q.
Proof. rewrite <- pow2_add. replace (- e + e)%Z with 0%Z by lia. reflexivity. Qed.

Lemma rne_bounds (x : Q) : (Qfloor x <= rne x <= Qfloor x + 1)%Z.
Proof.
  unfold rne. destruct (x - inject_Z (Qfloor x) ?= 1 # 2)%Q;
    [destruct (Z.even (Qfloor x))| |]; lia.
Qed.

Lemma rne_comp (x y : Q) : (x == y)%Q -> rne x = rne y.
Proof.
  intros H. unfold rne. rewrite (Qfloor_comp x y H).
  assert (E : (x - inject_Z (Qfloor y) == y - inject_Z (Qfloor y))%Q)
    by (rewrite H; reflexivity).
  rewrite (Qcompare_comp _ _ E _ _ (Qeq_refl (1 # 2))). reflexivity.
Qed.

Lemma rne_Z (n : Z) : rne (inject_Z n) = n.
Proof.
  unfold rne. rewrite Qfloor_Z.
  assert (E : (inject_Z n - inject_Z n ?= 1 # 2)%Q = Lt).
  { apply (proj1 (Qlt_alt _ _)).
    unfold Qlt, Qminus, Qplus, Qopp, inject_Z. simpl. lia. }
  rewrite E. reflexivity.
Qed.

Lemma rne_mono (x y : Q) : (x <= y)%Q -> (rne x <= rne y)%Z.
Proof.
  intros H. pose proof (Qfloor_resp_le x y H) as Hf.
  pose proof (rne_bounds x) as Hx. pose proof (rne_bounds y) as Hy.
  destruct (Z.eq_dec (Qfloor x) (Qfloor y)) as [E|E]; [|lia].
  clear Hx Hy Hf. unfold rne. rewrite E.
  destruct (x - inject_Z (Qfloor y) ?= 1 # 2)%Q eqn:Cx;
    destruct (y - inject_Z (Qfloor y) ?= 1 # 2)%Q eqn:Cy.
  - lia.
  - apply (proj2 (Qeq_alt _ _)) in Cx. apply (proj2 (Qlt_alt _ _)) in Cy.
    exfalso. lra.
  - destruct (Z.even (Qfloor y)); lia.
  - destruct (Z.even (Qfloor y)); lia.
  - lia.
  - lia.
  - apply (proj2 (Qgt_alt _ _)) in Cx. apply (proj2 (Qeq_alt _ _)) in Cy.
    exfalso. lra.
  - apply (proj2 (Qgt_alt _ _)) in Cx. apply (proj2 (Qlt_alt _ _)) in Cy.
    exfalso. lra.
  - lia.
Qed.

Lemma rne_le_Z (x : Q) (n : Z) : (x <= inject_Z n)%Q -> (rne x <= n)%Z.
Proof. intros H. rewrite <- (rne_Z n). apply rne_mono, H. Qed.

Lemma rne_ge_Z (x : Q) (n : Z) : (inject_Z n <= x)%Q -> (n <= rne x)%Z.
Proof. intros H. rewrite <- (rne_Z n). apply rne_mono, H. Qed.

Lemma pow2_frac (a b : Z) :
  (0 <= a)%Z -> (0 <= b)%Z ->
  (pow2 (a - b) == inject_Z (2 ^ a) / inject_Z (2 ^ b))%Q.
Proof.
  intros Ha Hb. unfold pow2. rewrite Qpower_minus by discriminate.
  fold (pow2 a). fold (pow2 b). rewrite (pow2_Z a Ha), (pow2_Z b Hb).
  reflexivity.
Qed.

Lemma frac_le (A B : Z) (x : Q) :
  (0 < B)%Z ->
  (A * Zpos (Qden x) <= Qnum x * B)%Z -> (inject_Z A / inject_Z B <= x)%Q.
Proof.
  intros HB H. apply Qle_shift_div_r.
  - unfold Qlt, inject_Z. simpl. lia.
  - unfold Qle, Qmult, inject_Z. simpl. lia.
Qed.

Lemma frac_gt (A B : Z) (x : Q) :
  (0 < B)%Z ->
  (Qnum x * B < A * Zpos (Qden x))%Z -> (x < inject_Z A / inject_Z B)%Q.
Proof.
  intros HB H. apply Qlt_shift_div_l.
  - unfold Qlt, inject_Z. simpl. lia.
  - unfold Qlt, Qmult, inject_Z. simpl. lia.
Qed.

Lemma qlog2_spec (x : Q) :
  (0 < x)%Q -> (pow2 (qlog2 x) <= x < pow2 (qlog2 x + 1))%Q.
Proof.
  intros Hx.
  assert (Hn : (0 < Qnum x)%Z).
  { unfold Qlt in Hx. simpl in Hx. lia. }
  pose proof (Z.log2_spec (Qnum x) Hn) as [Ha1 Ha2].
  pose proof (Z.log2_spec (Zpos (Qden x)) (Pos2Z.is_pos _)) as [Hb1 Hb2].
  pose proof (Z.log2_nonneg (Qnum x)) as Ha.
  pose proof (Z.log2_nonneg (Zpos (Qden x))) as Hb.
  unfold qlog2.
  set (a := Z.log2 (Qnum x)) in *. set (b := Z.log2 (Zpos (Qden x))) in *.
  assert (HA : (0 < 2 ^ a)%Z) by (apply Z.pow_pos_nonneg; lia).
  assert (HB : (0 < 2 ^ b)%Z) by (apply Z.pow_pos_nonneg; lia).
  destruct (Qle_bool (pow2 (a - b)) x) eqn:E.
  - split; [apply Qle_bool_iff, E|].
    replace (a - b + 1)%Z with (Z.succ a - b)%Z by lia.
    rewrite pow2_frac by lia. apply frac_gt; [exact HB|]. nia.
  - assert (Hlt : (x < pow2 (a - b))%Q).
    { apply Qnot_le_lt. intros Hle. apply Qle_bool_iff in Hle. congruence. }
    split.
    + replace (a - b - 1)%Z with (a - Z.succ b)%Z by lia.
      rewrite pow2_frac by lia. apply frac_le.
      * apply Z.pow_pos_nonneg; lia.
      * nia.
    + replace (a - b - 1 + 1)%Z with (a - b)%Z by lia. exact Hlt.
Qed.

Lemma qlog2_mono (x y : Q) :
  (0 < x)%Q -> (x <= y)%Q -> (qlog2 x <= qlog2 y)%Z.
Proof.
  intros Hx Hxy.
  destruct (qlog2_spec x Hx) as [Hx1 _].
  destruct (qlog2_spec y) as [_ Hy2]; [lra|].
  assert (H : (pow2 (qlog2 x) < pow2 (qlog2 y + 1))%Q) by lra.
  apply pow2_lt_inv in H. lia.
Qed.

Lemma qlog2_lt (x : Q) (k : Z) :
  (0 < x)%Q -> (x < pow2 k)%Q -> (qlog2 x < k)%Z.
Proof.
  intros Hx Hk. destruct (qlog2_spec x Hx) as [Hx1 _].
  apply pow2_lt_inv. lra.
Qed.

Lemma qlog2_ge (x : Q) (k : Z) :
  (pow2 k <= x)%Q -> (k <= qlog2 x)%Z.
Proof.
  intros Hk. pose proof (pow2_pos k) as Hp.
  destruct (qlog2_spec x) as [_ Hx2]; [lra|].
  assert (H : (pow2 k < pow2 (qlog2 x + 1))%Q) by lra.
  apply pow2_lt_inv in H. lia.
Qed.

Lemma pow2_scaled (k u : Z) :
  (u <= k)%Z -> (pow2 k * pow2 (- u) == inject_Z (2 ^ (k - u)))%Q.
Proof.
  intros H. rewrite <- pow2_add, <- pow2_Z by lia.
  replace (k + - u)%Z with (k - u)%Z by lia. reflexivity.
Qed.

Lemma pow2_unscaled (k u : Z) :
  (u <= k)%Z -> (inject_Z (2 ^ (k - u)) * pow2 u == pow2 k)%Q.
Proof.
  intros H. rewrite <- pow2_Z, <- pow2_add by lia.
  replace (k - u + u)%Z with k by lia. reflexivity.
Qed.

Lemma inject_Z_le (a b : Z) : (a <= b)%Z -> (inject_Z a <= inject_Z b)%Q.
Proof. intros H. rewrite <- Zle_Qle. exact H. Qed.

Lemma round_pos_le_pow2 (x : Q) (k : Z) :
  (x <= pow2 k)%Q -> (ulp_exp x <= k)%Z -> (round_pos x <= pow2 k)%Q.
Proof.
  intros Hx Hu. unfold round_pos. set (u := ulp_exp x) in *.
  rewrite <- (pow2_unscaled k u Hu).
  apply Qmult_le_compat_r; [|apply Qlt_le_weak, pow2_pos].
  apply inject_Z_le, rne_le_Z. rewrite <- (pow2_scaled k u Hu).
  apply Qmult_le_compat_r; [exact Hx | apply Qlt_le_weak, pow2_pos].
Qed.

Lemma round_pos_ge_pow2 (x : Q) (k : Z) :
  (pow2 k <= x)%Q -> (ulp_exp x <= k)%Z -> (pow2 k <= round_pos x)%Q.
Proof.
  intros Hx Hu. unfold round_pos. set (u := ulp_exp x) in *.
  rewrite <- (pow2_unscaled k u Hu).
  apply Qmult_le_compat_r; [|apply Qlt_le_weak, pow2_pos].
  apply inject_Z_le, rne_ge_Z. rewrite <- (pow2_scaled k u Hu).
  apply Qmult_le_compat_r; [exact Hx | apply Qlt_le_weak, pow2_pos].
Qed.

Lemma round_pos_nonneg (x : Q) : (0 <= x)%Q -> (0 <= round_pos x)%Q.
Proof.
  intros Hx. unfold round_pos. apply Qmult_le_0_compat.
  - apply (inject_Z_le 0), rne_ge_Z. apply Qmult_le_0_compat; [exact Hx|].
    apply Qlt_le_weak, pow2_pos.
  - apply Qlt_le_weak, pow2_pos.
Qed.

Lemma round_pos_mono (x y : Q) :
  (0 < x)%Q -> (x <= y)%Q -> (round_pos x <= round_pos y)%Q.
Proof.
  intros Hx Hxy. assert (Hy : (0 < y)%Q) by lra.
  pose proof (qlog2_mono x y Hx Hxy) as Hk.
  destruct (qlog2_spec x Hx) as [Hx1 Hx2].
  destruct (qlog2_spec y Hy) as [Hy1 Hy2].
  destruct (Z.eq_dec (ulp_exp x) (ulp_exp y)) as [E|E].
  - unfold round_pos. rewrite E.
    apply Qmult_le_compat_r; [|apply Qlt_le_weak, pow2_pos].
    apply inject_Z_le, rne_mono.
    apply Qmult_le_compat_r; [exact Hxy | apply Qlt_le_weak, pow2_pos].
  - assert (Hlt : (qlog2 x + 1 <= qlog2 y)%Z) by (unfold ulp_exp in E; lia).
    apply Qle_trans with (pow2 (qlog2 y)).
    + apply round_pos_le_pow2; [|unfold ulp_exp in *; lia].
      pose proof (pow2_le _ _ Hlt). lra.
    + apply round_pos_ge_pow2; [exact Hy1 | unfold ulp_exp in *; lia].
Qed.

Lemma qlog2_comp (x y : Q) : (0 < x)%Q -> (x == y)%Q -> qlog2 x = qlog2 y.
Proof.
  intros Hx E. assert (Hy : (0 < y)%Q) by lra.
  pose proof (qlog2_mono x y Hx ltac:(lra)).
  pose proof (qlog2_mono y x Hy ltac:(lra)). lia.
Qed.

Lemma round_pos_comp (x y : Q) :
  (0 < x)%Q -> (x == y)%Q -> (round_pos x == round_pos y)%Q.
Proof.
  intros Hx E. unfold round_pos, ulp_exp. rewrite (qlog2_comp x y Hx E).
  rewrite (rne_comp (x * _) (y * pow2 (- Z.max (qlog2 y - 52) (-1074)))).
  - reflexivity.
  - rewrite E. reflexivity.
Qed.

Lemma round_pos_exact (x : Q) (m e : Z) :
  (0 < m < 2 ^ 53)%Z -> (-1074 <= e)%Z ->
  (x == inject_Z m * pow2 e)%Q -> (round_pos x == x)%Q.
Proof.
  intros Hm He E.
  assert (Hx : (0 < x)%Q).
  { rewrite E. apply Qmult_lt_0_compat; [|apply pow2_pos].
    rewrite <- (Zlt_Qlt 0). lia. }
  assert (Hu : (ulp_exp x <= e)%Z).
  { assert (Hk : (qlog2 x < 53 + e)%Z).
    { apply qlog2_lt; [exact Hx|]. rewrite E, pow2_add, (pow2_Z 53) by lia.
      apply Qmult_lt_compat_r; [apply pow2_pos|].
      rewrite <- Zlt_Qlt. lia. }
    unfold ulp_exp. lia. }
  unfold round_pos. set (u := ulp_exp x) in *.
  assert (Es : (x * pow2 (- u) == inject_Z (m * 2 ^ (e - u)))%Q).
  { rewrite E, inject_Z_mult, <- (pow2_scaled e u Hu). ring. }
  rewrite (rne_comp _ _ Es), rne_Z, inject_Z_mult.
  rewrite <- Qmult_assoc, (pow2_unscaled e u Hu). symmetry. exact E.
Qed.

Lemma Qnum_sign (x : Q) :
  match Qnum x with
  | Z0 => (x == 0)%Q
  | Zpos _ => (0 < x)%Q
  | Zneg _ => (x < 0)%Q
  end.
Proof.
  destruct x as [n d]. simpl. destruct n.
  - reflexivity.
  - unfold Qlt. simpl. lia.
  - unfold Qlt. simpl. lia.
Qed.

Lemma Qnum_opp_neg (x : Q) (p : positive) :
  Qnum x = Zneg p -> (0 < - x)%Q.
Proof.
  intros H. pose proof (Qnum_sign x) as Hs. rewrite H in Hs. lra.
Qed.

Lemma round_unbounded_zero (x : Q) : (x == 0)%Q -> round_unbounded x = 0%Q.
Proof.
  intros H. unfold round_unbounded.
  pose proof (Qnum_sign x) as Hs.
  destruct (Qnum x); [reflexivity | exfalso; lra | exfalso; lra].
Qed.

Lemma round_unbounded_mono (x y : Q) :
  (x <= y)%Q -> (round_unbounded x <= round_unbounded y)%Q.
Proof.
  intros H. unfold round_unbounded.
  pose proof (Qnum_sign x) as Hx. pose proof (Qnum_sign y) as Hy.
  destruct (Qnum x) eqn:Ex; destruct (Qnum y) eqn:Ey;
    try (exfalso; lra).
  - lra.
  - apply round_pos_nonneg. lra.
  - apply round_pos_mono; assumption.
  - pose proof (round_pos_nonneg (- x) ltac:(lra)). lra.
  - pose proof (round_pos_nonneg (- x) ltac:(lra)).
    pose proof (round_pos_nonneg y ltac:(lra)). lra.
  - pose proof (round_pos_mono (- y) (- x) ltac:(lra) ltac:(lra)). lra.
Qed.

Lemma round_unbounded_exact (q : Q) :
  representable q -> (round_unbounded q == q)%Q.
Proof.
  intros (m & e & Hm & He & E). unfold round_unbounded.
  pose proof (Qnum_sign q) as Hs. pose proof (pow2_pos e) as Hp.
  destruct (Qnum q) eqn:En.
  - symmetry. exact Hs.
  - apply (round_pos_exact q m e); [|lia|exact E].
    split; [|lia]. destruct (Z_lt_le_dec 0 m) as [H|H]; [exact H|].
    exfalso.
    pose proof (Qmult_le_compat_r _ _ (pow2 e) (inject_Z_le m 0 H)
                  ltac:(lra)) as Hq.
    rewrite Qmult_0_l in Hq. lra.
  - assert (Er : (round_pos (- q) == - q)%Q).
    { apply (round_pos_exact (- q) (- m) e); [|lia|].
      - split; [|lia]. destruct (Z_lt_le_dec m 0) as [H|H]; [lia|].
        exfalso. assert (Hq : (0 <= inject_Z m * pow2 e)%Q).
        { apply Qmult_le_0_compat; [|lra]. apply (inject_Z_le 0 m). exact H. }
        lra.
      - rewrite E, inject_Z_opp. ring. }
    rewrite Er. ring.
Qed.

Lemma representable_bound (q : Q) :
  representable q -> (- pow2 1024 < q < pow2 1024)%Q.
Proof.
  intros (m & e & Hm & He & E). pose proof (pow2_pos e) as Hp.
  assert (Hb : (pow2 53 * pow2 e <= pow2 1024)%Q).
  { rewrite <- pow2_add. apply pow2_le. lia. }
  assert (H1 : (inject_Z m * pow2 e < pow2 53 * pow2 e)%Q).
  { apply Qmult_lt_compat_r; [exact Hp|]. rewrite (pow2_Z 53) by lia.
    rewrite <- Zlt_Qlt. lia. }
  assert (H2 : (- (pow2 53 * pow2 e) < inject_Z m * pow2 e)%Q).
  { assert (H3 : ((- pow2 53) * pow2 e < inject_Z m * pow2 e)%Q).
    { apply Qmult_lt_compat_r; [exact Hp|]. rewrite (pow2_Z 53) by lia.
      rewrite <- inject_Z_opp, <- Zlt_Qlt. lia. }
    assert (H4 : ((- pow2 53) * pow2 e == - (pow2 53 * pow2 e))%Q) by ring.
    rewrite H4 in H3. exact H3. }
  rewrite E. split; lra.
Qed.

Lemma Qle_bool_false (x y : Q) : (y < x)%Q -> Qle_bool x y = false.
Proof.
  intros H. destruct (Qle_bool x y) eqn:E; [|reflexivity].
  apply Qle_bool_iff in E. exfalso. lra.
Qed.

Lemma round64_exact (q : Q) :
  representable q -> exists q' : Q, round64 q = Finite q' /\ (q' == q)%Q.
Proof.
  intros H. exists (round_unbounded q).
  pose proof (round_unbounded_exact q H) as E.
  pose proof (representable_bound q H) as [Hlo Hhi].
  split; [|exact E]. unfold round64.
  rewrite (Qle_bool_false (pow2 1024) (round_unbounded q)) by lra.
  rewrite (Qle_bool_false (round_unbounded q) (- pow2 1024)) by lra.
  reflexivity.
Qed.

Lemma round64_zero (x : Q) : (x == 0)%Q -> round64 x = Finite 0.
Proof.
  intros H. unfold round64. rewrite (round_unbounded_zero x H).
  pose proof (pow2_pos 1024).
  rewrite (Qle_bool_false (pow2 1024) 0), (Qle_bool_false 0 (- pow2 1024))
    by lra.
  reflexivity.
Qed.

Lemma double_gt_mono (x y t : Q) :
  (x <= y)%Q ->
  double_gt (round64 x) t = true -> double_gt (round64 y) t = true.
Proof.
  intros H. pose proof (round_unbounded_mono x y H) as Hr.
  unfold round64.
  destruct (Qle_bool (pow2 1024) (round_unbounded x)) eqn:E1.
  - apply Qle_bool_iff in E1.
    assert (E2 : Qle_bool (pow2 1024) (round_unbounded y) = true)
      by (apply Qle_bool_iff; lra).
    rewrite E2. reflexivity.
  - destruct (Qle_bool (round_unbounded x) (- pow2 1024)) eqn:E3;
      [discriminate|].
    cbn [double_gt]. intros Hg. apply Qgtb_true in Hg.
    destruct (Qle_bool (pow2 1024) (round_unbounded y)); [reflexivity|].
    destruct (Qle_bool (round_unbounded y) (- pow2 1024)) eqn:E4.
    + apply Qle_bool_iff in E4.
      assert (E5 : Qle_bool (round_unbounded x) (- pow2 1024) = true)
        by (apply Qle_bool_iff; lra).
      congruence.
    + cbn [double_gt]. apply Qgtb_true. lra.
Qed.

(** With a representable threshold, rounding does not lift a difference over
    it. *)
Lemma double_gt_le_threshold (x t : Q) :
  representable t -> (x <= t)%Q -> double_gt (round64 x) t = false.
Proof.
  intros Ht Hx. destruct (double_gt (round64 x) t) eqn:E; [|reflexivity].
  pose proof (double_gt_mono x t t Hx E) as Hg.
  destruct (round64_exact t Ht) as (t' & Et & Eq). rewrite Et in Hg.
  cbn [double_gt] in Hg. apply Qgtb_true in Hg. exfalso. lra.
Qed.

Lemma double_gt_exact (x t : Q) :
  representable x -> double_gt (round64 x) t = Qgtb x t.
Proof.
  intros Hx. destruct (round64_exact x Hx) as (x' & -> & Eq). cbn [double_gt].
  unfold Qgtb. rewrite Eq. reflexivity.
Qed.

(** ** The dictionary *)

Lemma dict_get_set_eq (k : string) (v : ref) (d : dict) :
  dict_get k (dict_set k v d) = Some v.
Proof.
  induction d as [|[k' v'] d IH]; simpl.
  - rewrite String.eqb_refl. reflexivity.
  - destruct (String.eqb k' k) eqn:E; simpl; rewrite E; auto.
Qed.

Lemma dict_get_set_ne (k k' : string) (v : ref) (d : dict) :
  k <> k' -> dict_get k' (dict_set k v d) = dict_get k' d.
Proof.
  intros Hne. induction d as [|[k0 v0] d IH]; simpl.
  - destruct (String.eqb k k') eqn:E; [|reflexivity].
    apply String.eqb_eq in E. contradiction.
  - destruct (String.eqb k0 k) eqn:E; simpl.
    + apply String.eqb_eq in E. subst k0.
      destruct (String.eqb k k') eqn:E'; [|reflexivity].
      apply String.eqb_eq in E'. contradiction.
    + rewrite IH. reflexivity.
Qed.

Lemma dict_get_app (k : string) (d d' : dict) :
  dict_get k (d ++ d') =
  match dict_get k d with Some v => Some v | None => dict_get k d' end.
Proof.
  induction d as [|[k0 v0] d IH]; simpl; [reflexivity|].
  destruct (String.eqb k0 k); auto.
Qed.

Lemma dict_get_new (k : string) (v : ref) (d : dict) :
  dict_get k d = None -> dict_get k (d ++ [(k, v)]) = Some v.
Proof.
  intros H. rewrite dict_get_app, H. simpl. rewrite String.eqb_refl. reflexivity.
Qed.

(** ** Watchdogs *)

Lemma active_set_active (b : bool) (w : Watchdog) : active (set_active b w) = b.
Proof. destruct w; reflexivity. Qed.

Lemma active_feed (now : Q) (w : Watchdog) : active (feed now w) = active w.
Proof. destruct w; reflexivity. Qed.


Lemma should_bark_inactive (w : Watchdog) (now : Q) :
  active w = false -> should_bark w now = PyNone.
Proof.
  destruct w as [d|d]; simpl; intros H;
    [unfold TimeDog_.should_bark | unfold EventDog_.should_bark];
    rewrite H; reflexivity.
Qed.


Lemma starve_iter_timedog (n : nat) (d : TimeDog) :
  Nat.iter n starve (ATimeDog d) = ATimeDog d.
Proof. induction n as [|n IH]; simpl; [|rewrite IH]; reflexivity. Qed.

(** [n] calls of [starve] add [n] to the counter of an [EventDog]. *)
Lemma starve_iter_eventdog (n : nat) (d : EventDog) :
  Nat.iter n starve (AnEventDog d) =
  AnEventDog {| ed_name := ed_name d; ed_active := ed_active d;
                max_events := max_events d;
                current_events := (current_events d + Z.of_nat n)%Z |}.
Proof.
  induction n as [|n IH].
  - simpl. rewrite Z.add_0_r. destruct d; reflexivity.
  - rewrite Nat.iter_succ, IH. simpl. unfold EventDog_.starve. simpl.
    do 2 f_equal. lia.
Qed.




(** C8: [starve] on a [TimeDog] changes nothing: the object after the call
    is the object before it, field by field, so [should_bark] at any later
    time is the same after any number of [starve] calls; on the object store,
    the call leaves the whole world as it was. *)
Theorem timedog_starve_noop (d : TimeDog) :
  TimeDog_.starve d = d
  /\ starve (ATimeDog d) = ATimeDog d
  /\ (forall (n : nat) (now : Q),
         should_bark (Nat.iter n starve (ATimeDog d)) now
         = should_bark (ATimeDog d) now)
  /\ (forall (s : World) (r : ref),
         store s !! r = Some (ATimeDog d) -> Obj.starve r s = (Return tt, s)).
Proof.
  repeat split.
  - intros n now. rewrite starve_iter_timedog. reflexivity.
  - intros s r H. unfold Obj.starve, mbind, M_bind, deref, assign, modify.
    rewrite H. unfold starve, TimeDog_.starve.
    rewrite list_insert_id by exact H. destruct s; reflexivity.
Qed.

Lemma timedog_starve_noop_witness :
  Obj.starve 0 (mkWorld (fun _ => 0%Q) 0
                        [ATimeDog (mkTimeDog "heartbeat" true 10 3)]
                        [("heartbeat", 0)] ResetNone [])
  = (Return tt, mkWorld (fun _ => 0%Q) 0
                        [ATimeDog (mkTimeDog "heartbeat" true 10 3)]
                        [("heartbeat", 0)] ResetNone []).
Proof.
  apply (proj2 (proj2 (proj2
           (timedog_starve_noop (mkTimeDog "heartbeat" true 10 3))))).
  reflexivity.
Defined.

(** ** The registry: what [adopt] does to the world *)

Ltac unfold_M :=
  unfold mbind, M_bind, mret, M_ret, log, call_reset_function, time_time,
    new, deref, assign, raise, gets, modify in *.

Lemma warned_fields (s : World) :
  clock (warned s) = clock s /\ reads (warned s) = reads s
  /\ store (warned s) = store s /\ dogs (warned s) = dogs s
  /\ _reset_function (warned s) = _reset_function s.
Proof.
  unfold warned.
  destruct (is_None (_reset_function s) || negb (callable (_reset_function s)));
    repeat split.
Qed.

(** The name is a key of [self.dogs]: the registered watchdog is returned
    and only the logger hears of the call. *)
Lemma adopt_registered (s : World) (nm : string) (t : option Q)
    (n : option Z) (w : ref) :
  dict_get nm (dogs s) = Some w ->
  DogHouse.adopt nm t n s =
  (Return w,
   set_trace (trace (warned s)
              ++ [Log DEBUG ("Attempted to adopt Watchdog " ++ nm ++ " twice!")])
             (warned s)).
Proof.
  intros H. unfold DogHouse.adopt, warned. unfold_M.
  destruct (is_None (_reset_function s) || negb (callable (_reset_function s)));
    simpl; rewrite H; reflexivity.
Qed.

(** The name is new and [timeout_s] is given: a [TimeDog] is made, whatever
    [max_events] is. *)
Lemma adopt_new_timedog (s : World) (nm : string) (t : Q) (n : option Z) :
  dict_get nm (dogs s) = None ->
  DogHouse.adopt nm (Some t) n s =
  (Return (length (store s)),
   {| clock := clock s;
      reads := S (reads s);
      store := store s ++ [ATimeDog (TimeDog_.init nm t (clock s (reads s)))];
      dogs := dogs s ++ [(nm, length (store s))];
      _reset_function := _reset_function s;
      trace := trace (warned s)
               ++ [Log DEBUG ("Adopted Watchdog " ++ nm ++ " (Timedog)")] |}).
Proof.
  intros H. unfold DogHouse.adopt, DogHouse.dogs_setdefault, warned. unfold_M.
  destruct (is_None (_reset_function s) || negb (callable (_reset_function s)));
    simpl; rewrite H; simpl; rewrite H; reflexivity.
Qed.

(** The name is new and only [max_events] is given: an [EventDog] is made,
    and the clock is not read. *)
Lemma adopt_new_eventdog (s : World) (nm : string) (n : Z) :
  dict_get nm (dogs s) = None ->
  DogHouse.adopt nm None (Some n) s =
  (Return (length (store s)),
   {| clock := clock s;
      reads := reads s;
      store := store s ++ [AnEventDog (EventDog_.init nm n)];
      dogs := dogs s ++ [(nm, length (store s))];
      _reset_function := _reset_function s;
      trace := trace (warned s)
               ++ [Log DEBUG ("Adopted Watchdog " ++ nm ++ " (Eventdog)")] |}).
Proof.
  intros H. unfold DogHouse.adopt, DogHouse.dogs_setdefault, warned. unfold_M.
  destruct (is_None (_reset_function s) || negb (callable (_reset_function s)));
    simpl; rewrite H; simpl; rewrite H; reflexivity.
Qed.

(** The name is new and no policy is given. *)
Lemma adopt_no_policy (s : World) (nm : string) :
  dict_get nm (dogs s) = None ->
  DogHouse.adopt nm None None s =
  (Raise (ValueError "Must supply timeout_s or max_events!"), warned s).
Proof.
  intros H. unfold DogHouse.adopt, warned. unfold_M.
  destruct (is_None (_reset_function s) || negb (callable (_reset_function s)));
    simpl; rewrite H; reflexivity.
Qed.

Lemma lookup_new {A : Type} (l : list A) (x : A) :
  (l ++ [x]) !! length l = Some x.
Proof. rewrite lookup_app_r by lia. rewrite Nat.sub_diag. reflexivity. Qed.

(** Adopting under a registered name changes neither the registry nor the
    store and returns the registered watchdog; so two calls with one name
    return one instance and add one entry. *)
Lemma adopt_twice_same_name (s : World) (nm : string) (t t' : option Q)
    (n n' : option Z) (r : ref) (s1 : World) :
  DogHouse.adopt nm t n s = (Return r, s1) ->
  exists s2 : World,
    DogHouse.adopt nm t' n' s1 = (Return r, s2)
    /\ dogs s2 = dogs s1 /\ store s2 = store s1
    /\ (dogs s = [] -> length (dogs s2) = 1%nat).
Proof.
  intros H1.
  assert (Hr : dict_get nm (dogs s1) = Some r
               /\ (dogs s = [] -> length (dogs s1) = 1%nat)).
  { destruct (dict_get nm (dogs s)) as [w|] eqn:E.
    - rewrite (adopt_registered s nm t n w E) in H1.
      injection H1 as <- <-. simpl.
      destruct (warned_fields s) as (_ & _ & _ & -> & _).
      split; [exact E|]. intros Hd. rewrite Hd in E. discriminate E.
    - destruct t as [q|]; [|destruct n as [m|]].
      + rewrite (adopt_new_timedog s nm q n E) in H1.
        injection H1 as <- <-. simpl. split; [apply dict_get_new, E|].
        intros ->. reflexivity.
      + rewrite (adopt_new_eventdog s nm m E) in H1.
        injection H1 as <- <-. simpl. split; [apply dict_get_new, E|].
        intros ->. reflexivity.
      + rewrite (adopt_no_policy s nm E) in H1. discriminate. }
  destruct Hr as [Hr Hlen].
  eexists. split; [apply (adopt_registered s1 nm t' n' r Hr)|]. simpl.
  destruct (warned_fields s1) as (_ & _ & -> & -> & _).
  repeat split. exact Hlen.
Qed.

(** C1: [adopt] tests and stores the name as given, without
    [_keytransform]. On an empty registry, [adopt("FIDO", timeout_s=5)]
    followed by [adopt("fido", timeout_s=5)] makes two watchdogs under two
    keys, although the names are equal up to letter case; a second
    [adopt("FIDO", timeout_s=5)] does return the first instance; and
    [__getitem__], which does lower-case its key, does not find the watchdog
    adopted as "FIDO" under that name. *)
Theorem adopt_keeps_letter_case :
  let s0 := DogHouse.init example_clock (ResetObject true true) in
  let '(r1, s1) := DogHouse.adopt "FIDO" (Some 5%Q) None s0 in
  let '(r2, s2) := DogHouse.adopt "fido" (Some 5%Q) None s1 in
  let '(r3, s3) := DogHouse.adopt "FIDO" (Some 5%Q) None s2 in
  same_upto_case "FIDO" "fido" = true
  /\ r1 = Return 0%nat /\ r2 = Return 1%nat /\ r3 = Return 0%nat
  /\ dogs s3 = [("FIDO", 0%nat); ("fido", 1%nat)]
  /\ (DogHouse.__len__ s3).1 = Return 2%nat
  /\ (DogHouse.__getitem__ "FIDO" s3).1 = Return 1%nat
  /\ (DogHouse.__getitem__ "FIDO" s1).1 = Raise (KeyError "fido").
Proof. vm_compute. repeat split. Qed.

(** C3: for a name that is not a key of the registry, [adopt] with neither
    [timeout_s] nor [max_events] raises [ValueError] to its caller, and the
    registry, the object store and the clock are as before: [len] of the
    registry is what it was, 0 if it was empty. *)
Theorem adopt_without_policy_raises (s : World) (nm : string) :
  dict_get nm (dogs s) = None ->
  exists s' : World,
    DogHouse.adopt nm None None s
    = (Raise (ValueError "Must supply timeout_s or max_events!"), s')
    /\ dogs s' = dogs s /\ store s' = store s /\ reads s' = reads s
    /\ DogHouse.__len__ s' = (Return (length (dogs s)), s')
    /\ (dogs s = [] -> DogHouse.__len__ s' = (Return 0%nat, s')).
Proof.
  intros H. exists (warned s).
  destruct (warned_fields s) as (_ & Hr & Hs & Hd & _).
  split; [apply adopt_no_policy, H|].
  unfold DogHouse.__len__, gets. rewrite Hd, Hs, Hr.
  repeat split. intros ->. reflexivity.
Qed.

Lemma adopt_without_policy_raises_witness :
  exists s' : World,
    DogHouse.adopt "x" None None (DogHouse.init example_clock ResetNone)
    = (Raise (ValueError "Must supply timeout_s or max_events!"), s')
    /\ dogs s' = [] /\ store s' = [] /\ reads s' = 0%nat
    /\ DogHouse.__len__ s' = (Return 0%nat, s')
    /\ ([] = @nil (string * ref) -> DogHouse.__len__ s' = (Return 0%nat, s')).
Proof.
  apply (adopt_without_policy_raises
           (DogHouse.init example_clock ResetNone) "x").
  reflexivity.
Defined.

(** C9: for a name that is not a key of the registry, [adopt] with both
    [timeout_s] and [max_events] given does not raise: it returns a new,
    inactive [TimeDog] with the given timeout, registered under the name at
    the end of the registry, and [max_events] plays no part: the outcome is
    that of the call without it. *)
Theorem adopt_both_policies_timedog (s : World) (nm : string) (t : Q) (n : Z) :
  dict_get nm (dogs s) = None ->
  exists (r : ref) (s' : World),
    DogHouse.adopt nm (Some t) (Some n) s = (Return r, s')
    /\ store s' !! r
       = Some (ATimeDog {| td_name := nm; td_active := false;
                           timeout_s := t;
                           last_feed := clock s (reads s) |})
    /\ store s' = store s ++ [ATimeDog (TimeDog_.init nm t (clock s (reads s)))]
    /\ dogs s' = dogs s ++ [(nm, r)]
    /\ dict_get nm (dogs s') = Some r
    /\ DogHouse.adopt nm (Some t) (Some n) s = DogHouse.adopt nm (Some t) None s.
Proof.
  intros H. do 2 eexists.
  split; [apply (adopt_new_timedog s nm t (Some n) H)|]. simpl.
  split; [apply lookup_new|]. split; [reflexivity|]. split; [reflexivity|].
  split; [apply dict_get_new, H|].
  rewrite !adopt_new_timedog by exact H. reflexivity.
Qed.

Lemma adopt_both_policies_timedog_witness :
  exists (r : ref) (s' : World),
    DogHouse.adopt "fido" (Some 5%Q) (Some 3%Z)
                   (DogHouse.init example_clock ResetNone) = (Return r, s')
    /\ store s' !! r
       = Some (ATimeDog {| td_name := "fido"; td_active := false;
                           timeout_s := 5; last_feed := example_clock 0 |})
    /\ store s' = [] ++ [ATimeDog (TimeDog_.init "fido" 5 (example_clock 0))]
    /\ dogs s' = [] ++ [("fido", r)]
    /\ dict_get "fido" (dogs s') = Some r
    /\ DogHouse.adopt "fido" (Some 5%Q) (Some 3%Z)
                      (DogHouse.init example_clock ResetNone)
       = DogHouse.adopt "fido" (Some 5%Q) None
                        (DogHouse.init example_clock ResetNone).
Proof.
  apply (adopt_both_policies_timedog
           (DogHouse.init example_clock ResetNone) "fido" 5%Q 3%Z).
  reflexivity.
Defined.

(** The item methods of [DogHouse] are those of [Keyed] with [lower]. *)
Lemma DogHouse_item_methods :
  DogHouse.__getitem__ = Keyed.__getitem__ lower
  /\ DogHouse.__setitem__ = Keyed.__setitem__ lower
  /\ DogHouse.__delitem__ = Keyed.__delitem__ lower.
Proof. repeat split. Qed.

Lemma Keyed_getitem_spec (str_lower : string -> string) (k : string)
    (s : World) :
  Keyed.__getitem__ str_lower k s
  = (match dict_get (str_lower k) (dogs s) with
     | Some w => Return w
     | None => Raise (KeyError (str_lower k))
     end, s).
Proof.
  unfold Keyed.__getitem__, Keyed._keytransform. unfold_M.
  destruct (dict_get (str_lower k) (dogs s)); reflexivity.
Qed.

Lemma Keyed_setitem_spec (str_lower : string -> string) (k : string)
    (w : ref) (s : World) :
  Keyed.__setitem__ str_lower k w s
  = (Return tt,
     set_dogs (dict_set (str_lower k) w (dogs s))
       (set_trace
          (trace s ++ [Log WARNING "We recommend adopting a dog instead!"])
          s)).
Proof. reflexivity. Qed.

Lemma Keyed_delitem_spec (str_lower : string -> string) (k : string)
    (s : World) :
  Keyed.__delitem__ str_lower k s
  = match dict_get (str_lower k) (dogs s) with
    | Some _ => (Return tt, set_dogs (dict_del (str_lower k) (dogs s)) s)
    | None => (Raise (KeyError (str_lower k)), s)
    end.
Proof.
  unfold Keyed.__delitem__, Keyed._keytransform. unfold_M.
  destruct (dict_get (str_lower k) (dogs s)); reflexivity.
Qed.




(** ** Thresholds of the two kinds of watchdog *)

Lemma Obj_feed_spec (s : World) (r : ref) (w : Watchdog) :
  store s !! r = Some w ->
  Obj.feed r s =
  (Return tt,
   set_store (<[r := feed (clock s (reads s)) w]> (store s))
     (match w with
      | ATimeDog _ => set_reads (S (reads s)) s
      | AnEventDog _ => s
      end)).
Proof.
  intros H. unfold Obj.feed. unfold_M. rewrite H.
  destruct w; reflexivity.
Qed.

(** On the store, [w.send_to_home()] replaces the object by
    [send_to_home now w], where [now] is the clock reading of the feed; an
    [EventDog] does not read the clock. *)
Lemma Obj_send_to_home_spec (s : World) (r : ref) (w : Watchdog) :
  store s !! r = Some w ->
  Obj.send_to_home r s =
  (Return tt,
   set_store (<[r := send_to_home (clock s (reads s)) w]> (store s))
     (match w with
      | ATimeDog _ => set_reads (S (reads s)) s
      | AnEventDog _ => s
      end)).
Proof.
  intros H. unfold Obj.send_to_home.
  unfold mbind at 1. unfold M_bind. rewrite (Obj_feed_spec s r w H).
  assert (Hlt : (r < length (store s))%nat) by (eapply lookup_lt_Some, H).
  unfold_M. unfold send_to_home.
  destruct w; simpl;
    rewrite list_lookup_insert_eq by exact Hlt;
    unfold modify; simpl; rewrite list_insert_insert_eq; reflexivity.
Qed.

Lemma fsub_diag (t : Q) : fsub t t = Finite 0.
Proof. apply round64_zero. ring. Qed.

(** The subtraction of the model is that of the Standard Library's
    specification of IEEE 754 binary64 arithmetic, here on a difference that
    needs rounding (a tie, which goes to the even neighbour), on one that
    needs none, on subnormal numbers and on an overflow. *)
Example fsub_agrees_with_SpecFloat :
  let sub := SFsub 53 1024 in
  let a := S754_finite false 4503599627370497 1 in
  let b := S754_finite false 6755399441055744 (-52) in
  let c := S754_finite false 5404319552844595 (-54) in
  let d := S754_finite false 7205759403792794 (-56) in
  let e := S754_finite false 3 (-1074) in
  let f := S754_finite false 1 (-1074) in
  let g := S754_finite false 9007199254740991 971 in
  let h := S754_finite true 9007199254740991 971 in
  (SF2Q a == inject_Z (2 ^ 53 + 2))%Q /\ (SF2Q b == 3 # 2)%Q
  /\ (exists q : Q, fsub (SF2Q a) (SF2Q b) = Finite q
                    /\ (q == SF2Q (sub a b))%Q)
  /\ (exists q : Q, fsub (SF2Q c) (SF2Q d) = Finite q
                    /\ (q == SF2Q (sub c d))%Q)
  /\ (exists q : Q, fsub (SF2Q e) (SF2Q f) = Finite q
                    /\ (q == SF2Q (sub e f))%Q)
  /\ fsub (SF2Q g) (SF2Q h) = PlusInfinity
  /\ sub g h = S754_infinity false.
Proof.
  cbv zeta.
  split; [vm_compute; reflexivity|]. split; [vm_compute; reflexivity|].
  split; [eexists; split; [vm_compute; reflexivity | vm_compute; reflexivity]|].
  split; [eexists; split; [vm_compute; reflexivity | vm_compute; reflexivity]|].
  split; [eexists; split; [vm_compute; reflexivity | vm_compute; reflexivity]|].
  split; vm_compute; reflexivity.
Qed.

(** C6, as the code has it: a [TimeDog] adopted under a new name with
    [timeout_s = t], then activated and not fed again (starved any number of
    times or not at all), barks at [now] exactly when the difference
    [now - last_feed], computed on doubles, is greater than [t], where
    [last_feed] is the time of the activation. When that difference is a
    double itself, so that the subtraction does not round, this is the
    threshold [last_feed + t]: no bark at [now <= last_feed + t], a bark at
    every [now > last_feed + t]. When [t] is a double, there is no bark at
    any [now <= last_feed + t], rounded difference or not. *)
Theorem timedog_barks_after_timeout (s : World) (nm : string) (t : Q)
    (n : option Z) (t1 : Q) :
  dict_get nm (dogs s) = None ->
  exists (r : ref) (s' : World) (d d' : TimeDog),
    DogHouse.adopt nm (Some t) n s = (Return r, s')
    /\ store s' !! r = Some (ATimeDog d)
    /\ send_to_home t1 (ATimeDog d) = ATimeDog d'
    /\ timeout_s d' = t /\ last_feed d' = t1
    /\ forall (k : nat) (now : Q),
         should_bark (Nat.iter k starve (ATimeDog d')) now
         = PyBool (double_gt (fsub now (last_feed d')) t)
         /\ (representable (now - last_feed d') ->
             ((now <= last_feed d' + t)%Q ->
              should_bark (Nat.iter k starve (ATimeDog d')) now = PyBool false)
             /\ ((last_feed d' + t < now)%Q ->
                 should_bark (Nat.iter k starve (ATimeDog d')) now
                 = PyBool true))
         /\ (representable t ->
             (now <= last_feed d' + t)%Q ->
             should_bark (Nat.iter k starve (ATimeDog d')) now = PyBool false).
Proof.
  intros H.
  eexists (length (store s)), _, (TimeDog_.init nm t (clock s (reads s))),
    (TimeDog_.set_active true
       (TimeDog_.feed t1 (TimeDog_.init nm t (clock s (reads s))))).
  split; [apply (adopt_new_timedog s nm t n H)|].
  split; [apply lookup_new|]. do 3 (split; [reflexivity|]).
  intros k now. rewrite starve_iter_timedog.
  cbn [should_bark TimeDog_.should_bark TimeDog_.set_active TimeDog_.feed
       TimeDog_.init td_active timeout_s last_feed].
  split; [reflexivity|]. split.
  - intros Hrep. unfold fsub. rewrite (double_gt_exact _ t Hrep).
    split; intros Hnow; f_equal.
    + apply Qgtb_false. lra.
    + apply Qgtb_true. lra.
  - intros Hrep Hnow. f_equal. unfold fsub.
    apply double_gt_le_threshold; [exact Hrep | lra].
Qed.

Lemma timedog_barks_after_timeout_witness :
  exists (r : ref) (s' : World) (d d' : TimeDog),
    DogHouse.adopt "heartbeat" (Some 10%Q) None
                   (DogHouse.init example_clock ResetNone) = (Return r, s')
    /\ store s' !! r = Some (ATimeDog d)
    /\ send_to_home 250%Q (ATimeDog d) = ATimeDog d'
    /\ timeout_s d' = 10%Q /\ last_feed d' = 250%Q
    /\ should_bark (Nat.iter 2 starve (ATimeDog d')) 260 = PyBool false
    /\ should_bark (Nat.iter 2 starve (ATimeDog d')) 261 = PyBool true.
Proof.
  destruct (timedog_barks_after_timeout
              (DogHouse.init example_clock ResetNone) "heartbeat" 10%Q None
              250%Q eq_refl) as (r & s' & d & d' & E & Hs & Hh & Ht & Hl & Hb).
  exists r, s', d, d'. do 5 (split; [assumption|]).
  destruct (Hb 2%nat 260%Q) as (_ & H260 & _).
  destruct (Hb 2%nat 261%Q) as (_ & H261 & _).
  rewrite Hl in H260, H261. split.
  - apply H260; [|vm_compute; discriminate].
    exists 10%Z, 0%Z. repeat split; vm_compute; congruence.
  - apply H261; [|vm_compute; reflexivity].
    exists 11%Z, 0%Z. repeat split; vm_compute; congruence.
Defined.

(** C6, as stated, fails: the subtraction rounds. A [TimeDog] with the
    timeout [2^53], activated at the clock reading 1.5, does not bark at
    [now = 2^53 + 2], which is later than [last_feed + t = 2^53 + 1.5]: the
    difference [2^53 + 0.5] lies halfway between the doubles [2^53] and
    [2^53 + 2] and is rounded to [2^53], which is not greater than the
    timeout. All three numbers are doubles. *)
Lemma timedog_rounding_hides_timeout :
  let t := inject_Z (2 ^ 53) in
  let now := inject_Z (2 ^ 53 + 2) in
  let prog := r ← DogHouse.adopt "heartbeat" (Some t) None;
              Obj.send_to_home r;;
              w ← deref r;
              b ← Obj.should_bark r now;
              mret (w, b) in
  (prog (DogHouse.init (fun _ => 3 # 2) (ResetObject true true))).1
  = Return (ATimeDog (mkTimeDog "heartbeat" true t (3 # 2)), PyBool false)
  /\ ((3 # 2) + t < now)%Q
  /\ representable t /\ representable (3 # 2) /\ representable now.
Proof.
  cbv zeta. split; [vm_compute; reflexivity|].
  split; [vm_compute; reflexivity|].
  split; [|split].
  - exists 4503599627370496%Z, 1%Z. repeat split; vm_compute; congruence.
  - exists 3%Z, (-1)%Z. repeat split; vm_compute; congruence.
  - exists 4503599627370497%Z, 1%Z. repeat split; vm_compute; congruence.
Qed.

(** C5, as the code has it: an [EventDog] adopted under a new name with
    [max_events = n >= 0] and then activated does not bark after exactly [n]
    calls of [starve] and no [feed], and barks after [n + 1]; after any
    number [k] of calls it barks exactly when [k > n]. *)
Theorem eventdog_barks_above_threshold (s : World) (nm : string) (n : Z)
    (t1 : Q) :
  dict_get nm (dogs s) = None ->
  (0 <= n)%Z ->
  exists (r : ref) (s' : World) (d : EventDog),
    DogHouse.adopt nm None (Some n) s = (Return r, s')
    /\ store s' !! r = Some (AnEventDog d)
    /\ max_events d = n /\ current_events d = 0%Z /\ ed_active d = false
    /\ forall now : Q,
         should_bark (Nat.iter (Z.to_nat n) starve (send_to_home t1 (AnEventDog d)))
                     now = PyBool false
         /\ should_bark
              (Nat.iter (S (Z.to_nat n)) starve (send_to_home t1 (AnEventDog d)))
              now = PyBool true
         /\ forall k : nat,
              should_bark (Nat.iter k starve (send_to_home t1 (AnEventDog d))) now
              = PyBool (Z.of_nat k >? n)%Z.
Proof.
  intros H Hn.
  eexists (length (store s)), _, (EventDog_.init nm n).
  split; [apply (adopt_new_eventdog s nm n H)|].
  split; [apply lookup_new|]. do 3 (split; [reflexivity|]).
  intros now.
  assert (Hk : forall k : nat,
             should_bark
               (Nat.iter k starve (send_to_home t1 (AnEventDog (EventDog_.init nm n))))
               now = PyBool (Z.of_nat k >? n)%Z).
  { intros k. unfold send_to_home. simpl.
    rewrite starve_iter_eventdog. reflexivity. }
  split; [|split; [|exact Hk]]; rewrite Hk; f_equal; rewrite Z.gtb_ltb.
  - apply Z.ltb_ge. lia.
  - apply Z.ltb_lt. lia.
Qed.

Lemma eventdog_barks_above_threshold_witness :
  exists (r : ref) (s' : World) (d : EventDog),
    DogHouse.adopt "errors" None (Some 3%Z)
                   (DogHouse.init example_clock ResetNone) = (Return r, s')
    /\ store s' !! r = Some (AnEventDog d)
    /\ max_events d = 3%Z /\ current_events d = 0%Z /\ ed_active d = false
    /\ forall now : Q,
         should_bark (Nat.iter (Z.to_nat 3) starve (send_to_home 0 (AnEventDog d)))
                     now = PyBool false
         /\ should_bark
              (Nat.iter (S (Z.to_nat 3)) starve (send_to_home 0 (AnEventDog d)))
              now = PyBool true
         /\ forall k : nat,
              should_bark (Nat.iter k starve (send_to_home 0 (AnEventDog d))) now
              = PyBool (Z.of_nat k >? 3)%Z.
Proof.
  apply (eventdog_barks_above_threshold
           (DogHouse.init example_clock ResetNone) "errors" 3%Z 0%Q).
  - reflexivity.
  - lia.
Defined.

(** C5, as stated, fails: a freshly adopted watchdog is inactive. With
    [max_events = 0], after [adopt] and one call of [starve] (that is
    [n + 1] calls), [should_bark] returns [None], not [True], although the
    counter is 1. *)
Lemma eventdog_fresh_does_not_bark :
  let s0 := DogHouse.init example_clock ResetNone in
  let prog := r ← DogHouse.adopt "errors" None (Some 0%Z);
              Obj.starve r;;
              b ← Obj.should_bark r 0%Q;
              w ← deref r;
              mret (b, truthy b, w) in
  (prog s0).1
  = Return (PyNone, false, AnEventDog (mkEventDog "errors" false 0 1)).
Proof. vm_compute. reflexivity. Qed.

(** C7, as the code has it: [send_to_home] feeds and then sets the flag.
    After it, at clock reading [t], the watchdog is active; a [TimeDog] has
    [last_feed = t] whatever its earlier [last_feed] was, so whether it barks
    depends on the time since the activation only, and at the instant of the
    activation it does not bark if its timeout is not negative (and does if
    it is); an [EventDog] has [current_events = 0]. On the object store the
    method call does this to the object it is called on. *)
Theorem activate_feeds_then_marks_active (w : Watchdog) (t : Q) :
  active (send_to_home t w) = true
  /\ name (send_to_home t w) = name w
  /\ (forall d : TimeDog,
        w = ATimeDog d ->
        exists d' : TimeDog,
          send_to_home t w = ATimeDog d'
          /\ last_feed d' = t /\ timeout_s d' = timeout_s d
          /\ (forall now : Q,
                should_bark (send_to_home t w) now
                = PyBool (double_gt (fsub now t) (timeout_s d)))
          /\ ((0 <= timeout_s d)%Q ->
              should_bark (send_to_home t w) t = PyBool false)
          /\ ((timeout_s d < 0)%Q ->
              should_bark (send_to_home t w) t = PyBool true))
  /\ (forall d : EventDog,
        w = AnEventDog d ->
        exists d' : EventDog,
          send_to_home t w = AnEventDog d'
          /\ current_events d' = 0%Z /\ max_events d' = max_events d)
  /\ (forall (s : World) (r : ref),
        store s !! r = Some w ->
        clock s (reads s) = t ->
        exists s' : World,
          Obj.send_to_home r s = (Return tt, s')
          /\ store s' !! r = Some (send_to_home t w)
          /\ dogs s' = dogs s).
Proof.
  split; [apply active_set_active|].
  split; [destruct w; reflexivity|].
  split; [|split].
  - intros d ->. eexists. split; [reflexivity|].
    cbn [send_to_home feed set_active should_bark TimeDog_.should_bark
         TimeDog_.set_active TimeDog_.feed td_active timeout_s last_feed].
    do 3 (split; [reflexivity|]). rewrite fsub_diag. cbn [double_gt].
    split; intros Ht; f_equal.
    + apply Qgtb_false. exact Ht.
    + apply Qgtb_true. exact Ht.
  - intros d ->. eexists. split; [reflexivity|]. split; reflexivity.
  - intros s r H <-. eexists.
    split; [apply (Obj_send_to_home_spec s r w H)|].
    assert (Hlt : (r < length (store s))%nat) by (eapply lookup_lt_Some, H).
    destruct w; simpl; (split; [apply list_lookup_insert_eq, Hlt | reflexivity]).
Qed.

Lemma activate_feeds_then_marks_active_witness :
  let stale := mkTimeDog "heartbeat" false 10 0 in
  let s := mkWorld (fun _ => 1000%Q) 0 [ATimeDog stale]
                   [("heartbeat", 0%nat)] ResetNone [] in
  should_bark (send_to_home 1000 (ATimeDog stale)) 1000 = PyBool false
  /\ (exists s' : World,
         Obj.send_to_home 0%nat s = (Return tt, s')
         /\ store s' !! 0%nat = Some (send_to_home 1000 (ATimeDog stale))
         /\ dogs s' = dogs s).
Proof.
  intros stale s.
  pose proof (activate_feeds_then_marks_active (ATimeDog stale) 1000%Q)
    as (_ & _ & Ht & _ & Hs).
  split.
  - destruct (Ht stale eq_refl) as (d' & _ & _ & _ & _ & H0 & _).
    apply H0. vm_compute. discriminate.
  - apply (Hs s 0%nat); reflexivity.
Defined.

(** C7, as stated, fails for a negative timeout, which [adopt] accepts: a
    [TimeDog] adopted with [timeout_s = -1] and activated barks at the very
    instant of its activation, since the elapsed time 0 is greater than
    -1. *)
Lemma negative_timeout_barks_at_activation :
  let prog := r ← DogHouse.adopt "heartbeat" (Some (-1)%Q) None;
              Obj.send_to_home r;;
              w ← deref r;
              b ← Obj.should_bark r 1000%Q;
              mret (w, b) in
  (prog (DogHouse.init (fun _ => 1000%Q) (ResetObject true true))).1
  = Return (ATimeDog (mkTimeDog "heartbeat" true (-1) 1000), PyBool true).
Proof. vm_compute. reflexivity. Qed.

(** ** The sweep *)

(** The loop passes over quiet entries without any effect. *)
Lemma check_loop_quiet (now : Q) (pre rest : list (string * ref)) (s : World) :
  Forall (quiet s now) pre ->
  DogHouse.check_loop now (pre ++ rest) s = DogHouse.check_loop now rest s.
Proof.
  induction 1 as [|[k r] pre (w & Hw & Hb) _ IH]; [reflexivity|].
  simpl in *. unfold Obj.should_bark. unfold_M. rewrite Hw.
  unfold barks in Hb. rewrite Hb. exact IH.
Qed.

(** At the first entry that barks the loop logs, calls the callback if there
    is one to call, and ends; the entries after it are not looked at. *)
Lemma check_loop_bark (now : Q) (nm : string) (r : ref)
    (post : list (string * ref)) (w : Watchdog) (s : World) :
  store s !! r = Some w -> barks w now = true ->
  DogHouse.check_loop now ((nm, r) :: post) s =
  (Return tt,
   set_trace (trace s
              ++ Log ERROR ("Watchdog " ++ nm ++ " has starved!!!")
                 :: (if truth (_reset_function s) && callable (_reset_function s)
                     then [CallReset r] else [])) s).
Proof.
  intros Hw Hb. simpl. unfold Obj.should_bark. unfold_M. rewrite Hw.
  unfold barks in Hb. rewrite Hb. simpl.
  destruct (truth (_reset_function s) && callable (_reset_function s)); simpl.
  - unfold set_trace. simpl. rewrite <- app_assoc. reflexivity.
  - reflexivity.
Qed.



(** The scenario of the spec: a [TimeDog] "heartbeat" with a timeout of 10
    and an [EventDog] "errors" with a threshold of 3, both activated; eleven
    clock readings later [check] reports "heartbeat" and calls the callback
    with it, once. *)
Example heartbeat_scenario :
  let prog :=
    h ← DogHouse.adopt "heartbeat" (Some 10%Q) None;
    Obj.send_to_home h;;
    e ← DogHouse.adopt "errors" None (Some 3%Z);
    Obj.send_to_home e;;
    Nat.iter 11 (fun m => time_time;; m) (mret tt);;
    DogHouse.check in
  let out := prog (DogHouse.init example_clock (ResetObject true true)) in
  out.1 = Return tt
  /\ trace out.2
     = [Log DEBUG "Adopted Watchdog heartbeat (Timedog)";
        Log DEBUG "Adopted Watchdog errors (Eventdog)";
        Log ERROR "Watchdog heartbeat has starved!!!";
        CallReset 0%nat]
  /\ dogs out.2 = [("heartbeat", 0%nat); ("errors", 1%nat)].
Proof. vm_compute. repeat split. Qed.

(** * Further properties of the code *)

(** ** Keys and their lower-cased forms *)

(** The three item methods see a key through its lower-cased form only: for
    two keys with the same lower-cased form each method has the same outcome,
    result (or [KeyError]) and world. A lookup never changes the world, and
    a failed lookup or deletion raises [KeyError] with the lower-cased key
    and changes nothing. *)
Theorem item_methods_see_lower_only (str_lower : string -> string)
    (s : World) (k k' : string) (w : ref) :
  str_lower k = str_lower k' ->
  Keyed.__getitem__ str_lower k s = Keyed.__getitem__ str_lower k' s
  /\ Keyed.__setitem__ str_lower k w s = Keyed.__setitem__ str_lower k' w s
  /\ Keyed.__delitem__ str_lower k s = Keyed.__delitem__ str_lower k' s
  /\ (Keyed.__getitem__ str_lower k s).2 = s
  /\ (dict_get (str_lower k') (dogs s) = None ->
      Keyed.__getitem__ str_lower k s = (Raise (KeyError (str_lower k')), s)
      /\ Keyed.__delitem__ str_lower k s
         = (Raise (KeyError (str_lower k')), s)).
Proof.
  intros H.
  rewrite !Keyed_getitem_spec, !Keyed_setitem_spec, !Keyed_delitem_spec, H.
  do 4 (split; [reflexivity|]).
  intros ->. split; reflexivity.
Qed.

Lemma item_methods_see_lower_only_witness :
  let s := mkWorld example_clock 0 [AnEventDog (EventDog_.init "fido" 3)]
                   [("fido", 0%nat)] ResetNone [] in
  Keyed.__getitem__ lower "Fido" s = Keyed.__getitem__ lower "FIDO" s
  /\ Keyed.__setitem__ lower "Fido" 0%nat s
     = Keyed.__setitem__ lower "FIDO" 0%nat s
  /\ Keyed.__delitem__ lower "Fido" s = Keyed.__delitem__ lower "FIDO" s
  /\ (Keyed.__getitem__ lower "Fido" s).2 = s
  /\ (Keyed.__getitem__ lower "Rex" s = (Raise (KeyError "rex"), s)
      /\ Keyed.__delitem__ lower "Rex" s = (Raise (KeyError "rex"), s)).
Proof.
  intros s.
  destruct (item_methods_see_lower_only lower s "Fido" "FIDO" 0%nat eq_refl)
    as (Hg & Hs & Hd & Hw & _).
  do 4 (split; [assumption|]).
  apply (item_methods_see_lower_only lower s "Rex" "REX" 0%nat eq_refl).
  reflexivity.
Defined.

(** ** The dictionary, continued *)

Lemma dict_get_None (k : string) (d : dict) :
  dict_get k d = None <-> k ∉ d.*1.
Proof.
  induction d as [|[k0 v0] d IH]; simpl.
  - split; [intros _; apply not_elem_of_nil | reflexivity].
  - rewrite not_elem_of_cons. destruct (String.eqb k0 k) eqn:E.
    + apply String.eqb_eq in E. subst k0. split; [discriminate|].
      intros [Hne _]. contradiction.
    + apply String.eqb_neq in E. rewrite IH. split; [|tauto].
      intros Hn. split; [congruence | exact Hn].
Qed.

Lemma dict_set_absent (k : string) (v : ref) (d : dict) :
  dict_get k d = None -> dict_set k v d = d ++ [(k, v)].
Proof.
  induction d as [|[k0 v0] d IH]; simpl; [reflexivity|].
  destruct (String.eqb k0 k); [discriminate|].
  intros H. rewrite (IH H). reflexivity.
Qed.

Lemma dict_set_present (k : string) (v : ref) (d : dict) :
  dict_get k d <> None -> (dict_set k v d).*1 = d.*1.
Proof.
  induction d as [|[k0 v0] d IH]; cbn [dict_get dict_set]; [congruence|].
  destruct (String.eqb k0 k); [reflexivity|].
  intros H. rewrite !fmap_cons, (IH H). reflexivity.
Qed.

Lemma dict_del_split (k : string) (v : ref) (d : dict) :
  dict_get k d = Some v ->
  exists pre post : dict,
    d = pre ++ (k, v) :: post /\ dict_del k d = pre ++ post
    /\ dict_get k pre = None.
Proof.
  induction d as [|[k0 v0] d IH]; simpl; [discriminate|].
  destruct (String.eqb k0 k) eqn:E.
  - apply String.eqb_eq in E. subst k0. intros [= ->].
    exists [], d. repeat split.
  - intros H. destruct (IH H) as (pre & post & -> & Hdel & Hpre).
    exists ((k0, v0) :: pre), post. simpl. rewrite Hdel, E. repeat split.
    exact Hpre.
Qed.

Lemma dict_get_del_ne (k k' : string) (d : dict) :
  k <> k' -> dict_get k' (dict_del k d) = dict_get k' d.
Proof.
  intros Hne. induction d as [|[k0 v0] d IH]; simpl; [reflexivity|].
  destruct (String.eqb k0 k) eqn:E; simpl.
  - apply String.eqb_eq in E. subst k0.
    destruct (String.eqb k k') eqn:E'; [|reflexivity].
    apply String.eqb_eq in E'. contradiction.
  - rewrite IH. reflexivity.
Qed.

Lemma dict_get_del_eq (k : string) (d : dict) :
  NoDup d.*1 -> dict_get k (dict_del k d) = None.
Proof.
  induction d as [|[k0 v0] d IH]; simpl; [reflexivity|].
  intros Hnd. apply NoDup_cons in Hnd as [Hk0 Hnd].
  destruct (String.eqb k0 k) eqn:E; simpl.
  - apply String.eqb_eq in E. subst k0. apply dict_get_None, Hk0.
  - rewrite E. apply IH, Hnd.
Qed.

Lemma dict_del_set_absent (k : string) (v : ref) (d : dict) :
  dict_get k d = None -> dict_del k (dict_set k v d) = d.
Proof.
  induction d as [|[k0 v0] d IH]; simpl.
  - rewrite String.eqb_refl. reflexivity.
  - destruct (String.eqb k0 k) eqn:E; [discriminate|].
    intros H. simpl. rewrite E, (IH H). reflexivity.
Qed.

(** ** Item assignment and deletion *)



(** [del registry[key]] for a key whose lower-cased form is registered
    removes exactly that entry and keeps the others in their order; nothing is
    logged and no object changes. After it, a lookup under any key with the
    same lower-cased form raises [KeyError]. *)
Theorem delitem_effect (str_lower : string -> string) (s : World)
    (key : string) (old : ref) :
  NoDup (dogs s).*1 ->
  dict_get (str_lower key) (dogs s) = Some old ->
  exists (s' : World) (pre post : dict),
    Keyed.__delitem__ str_lower key s = (Return tt, s')
    /\ dogs s = pre ++ (str_lower key, old) :: post
    /\ dogs s' = pre ++ post
    /\ S (length (dogs s')) = length (dogs s)
    /\ store s' = store s /\ trace s' = trace s /\ reads s' = reads s
    /\ (forall k' : string,
           k' <> str_lower key ->
           dict_get k' (dogs s') = dict_get k' (dogs s))
    /\ (forall k' : string,
           str_lower k' = str_lower key ->
           Keyed.__getitem__ str_lower k' s'
           = (Raise (KeyError (str_lower key)), s')).
Proof.
  intros Hnd Hget.
  destruct (dict_del_split _ _ _ Hget) as (pre & post & Hd & Hdel & _).
  exists (set_dogs (dict_del (str_lower key) (dogs s)) s), pre, post.
  split; [rewrite Keyed_delitem_spec, Hget; reflexivity|].
  split; [exact Hd|]. cbn [dogs set_dogs store trace reads].
  split; [exact Hdel|].
  split; [rewrite Hdel, Hd, !length_app; simpl; lia|].
  do 3 (split; [reflexivity|]).
  split; [intros k' Hk'; apply dict_get_del_ne; congruence|].
  intros k' Hk'. rewrite Keyed_getitem_spec. cbn [dogs set_dogs].
  rewrite Hk', dict_get_del_eq by exact Hnd. reflexivity.
Qed.

Lemma delitem_effect_witness :
  let s := mkWorld example_clock 0
             [AnEventDog (EventDog_.init "a" 3); AnEventDog (EventDog_.init "b" 3)]
             [("fido", 0%nat); ("rex", 1%nat)] ResetNone [] in
  exists (s' : World) (pre post : dict),
    Keyed.__delitem__ lower "Fido" s = (Return tt, s')
    /\ dogs s = pre ++ ("fido", 0%nat) :: post
    /\ dogs s' = pre ++ post
    /\ S (length (dogs s')) = length (dogs s)
    /\ store s' = store s /\ trace s' = trace s /\ reads s' = reads s
    /\ (forall k' : string,
           k' <> "fido" -> dict_get k' (dogs s') = dict_get k' (dogs s))
    /\ (forall k' : string,
           lower k' = "fido" ->
           Keyed.__getitem__ lower k' s' = (Raise (KeyError "fido"), s')).
Proof.
  intros s. apply (delitem_effect lower s "Fido" 0%nat).
  - apply (bool_decide_unpack _). vm_compute. exact I.
  - reflexivity.
Defined.

(** Assigning under a key whose lower-cased form is not registered and then
    deleting under a key with the same lower-cased form gives back the
    registry as it was, entry by entry; the warning of the assignment is all
    that remains. *)
Theorem setitem_delitem_restores (str_lower : string -> string) (s : World)
    (k k' : string) (w : ref) :
  dict_get (str_lower k) (dogs s) = None ->
  str_lower k' = str_lower k ->
  (Keyed.__setitem__ str_lower k w;; Keyed.__delitem__ str_lower k') s
  = (Return tt,
     set_trace
       (trace s ++ [Log WARNING "We recommend adopting a dog instead!"]) s).
Proof.
  intros Hn Hk.
  unfold mbind, M_bind. rewrite Keyed_setitem_spec, Keyed_delitem_spec.
  cbn [dogs set_dogs]. rewrite Hk, dict_get_set_eq.
  rewrite dict_del_set_absent by exact Hn. destruct s; reflexivity.
Qed.

Lemma setitem_delitem_restores_witness :
  let s := mkWorld example_clock 0 [AnEventDog (EventDog_.init "a" 3)]
                   [("rex", 0%nat)] ResetNone [] in
  (Keyed.__setitem__ lower "Fido" 0%nat;; Keyed.__delitem__ lower "FIDO") s
  = (Return tt,
     set_trace
       (trace s ++ [Log WARNING "We recommend adopting a dog instead!"]) s).
Proof.
  intros s.
  apply (setitem_delitem_restores lower s "Fido" "FIDO" 0%nat); reflexivity.
Defined.

(** ** Adoption, continued *)

(** [adopt] under a new name with a policy: the new object, the new
    entry. *)
Lemma adopt_new (s : World) (nm : string) (t : option Q) (n : option Z) :
  dict_get nm (dogs s) = None ->
  is_Some t \/ is_Some n ->
  exists (w0 : Watchdog) (s' : World),
    DogHouse.adopt nm t n s = (Return (length (store s)), s')
    /\ store s' = store s ++ [w0]
    /\ dogs s' = dogs s ++ [(nm, length (store s))]
    /\ name w0 = nm /\ active w0 = false
    /\ policy w0 = match t, n with
                   | Some q, _ => inl q
                   | None, Some m => inr m
                   | None, None => inr 0%Z
                   end
    /\ _reset_function s' = _reset_function s /\ clock s' = clock s.
Proof.
  intros H Hp. destruct t as [q|]; [|destruct n as [m|]].
  - do 2 eexists. split; [apply (adopt_new_timedog s nm q n H)|].
    repeat split.
  - do 2 eexists. split; [apply (adopt_new_eventdog s nm m H)|].
    repeat split.
  - destruct Hp as [[? [=]]|[? [=]]].
Qed.

Lemma adopt_twice_same_name_witness :
  exists s2 : World,
    DogHouse.adopt "Fido" None (Some 7%Z)
      (DogHouse.adopt "Fido" (Some 5%Q) None
         (DogHouse.init example_clock ResetNone)).2
    = (Return 0%nat, s2)
    /\ dogs s2 = [("Fido", 0%nat)]
    /\ store s2 = [ATimeDog (TimeDog_.init "Fido" 5 (example_clock 0))]
    /\ ([] = @nil (string * ref) -> length (dogs s2) = 1%nat).
Proof.
  apply (adopt_twice_same_name (DogHouse.init example_clock ResetNone)
           "Fido" (Some 5%Q) None None (Some 7%Z) 0%nat).
  reflexivity.
Defined.

(** A watchdog adopted under a new name is found by item lookup only if
    lower-casing leaves the name as it is. If it does, [registry[k']] returns
    the adopted watchdog for every [k'] whose lower-cased form is the name.
    If it does not, and the lower-cased form is not registered either, every
    lookup under a key with that lower-cased form (the name itself included)
    raises [KeyError]: [adopt] stores the name as given and [__getitem__]
    looks for the lower-cased key. *)
Theorem adopt_then_getitem (str_lower : string -> string) (s : World)
    (nm : string) (t : option Q) (n : option Z) :
  dict_get nm (dogs s) = None ->
  is_Some t \/ is_Some n ->
  exists (r : ref) (s' : World),
    DogHouse.adopt nm t n s = (Return r, s')
    /\ dict_get nm (dogs s') = Some r
    /\ (str_lower nm = nm ->
        forall k' : string,
          str_lower k' = nm ->
          Keyed.__getitem__ str_lower k' s' = (Return r, s'))
    /\ (str_lower nm <> nm ->
        dict_get (str_lower nm) (dogs s) = None ->
        forall k' : string,
          str_lower k' = str_lower nm ->
          Keyed.__getitem__ str_lower k' s'
          = (Raise (KeyError (str_lower nm)), s')).
Proof.
  intros H Hp.
  destruct (adopt_new s nm t n H Hp) as (w0 & s' & E & _ & Hd & _).
  exists (length (store s)), s'. split; [exact E|].
  assert (Hnew : dict_get nm (dogs s') = Some (length (store s)))
    by (rewrite Hd; apply dict_get_new, H).
  split; [exact Hnew|]. split.
  - intros Hl k' Hk'. rewrite Keyed_getitem_spec, Hk', Hnew. reflexivity.
  - intros Hl Hn k' Hk'. rewrite Keyed_getitem_spec, Hk', Hd, dict_get_app, Hn.
    simpl. destruct (String.eqb nm (str_lower nm)) eqn:Eq; [|reflexivity].
    apply String.eqb_eq in Eq. congruence.
Qed.

Lemma adopt_then_getitem_witness :
  let s0 := DogHouse.init example_clock ResetNone in
  (Keyed.__getitem__ lower "FIDO"
     (DogHouse.adopt "fido" (Some 5%Q) None s0).2).1
  = Return 0%nat
  /\ (Keyed.__getitem__ lower "Fido"
        (DogHouse.adopt "Fido" (Some 5%Q) None s0).2).1
     = Raise (KeyError "fido").
Proof.
  intros s0. split.
  - destruct (adopt_then_getitem lower s0 "fido" (Some 5%Q) None eq_refl)
      as (r & s' & E & _ & Hl & _); [left; eexists; reflexivity|].
    rewrite E. simpl. rewrite (Hl eq_refl "FIDO" eq_refl).
    injection E as <- _. reflexivity.
  - destruct (adopt_then_getitem lower s0 "Fido" (Some 5%Q) None eq_refl)
      as (r & s' & E & _ & _ & Hu); [left; eexists; reflexivity|].
    rewrite E. simpl. rewrite (Hu ltac:(discriminate) eq_refl "Fido" eq_refl).
    reflexivity.
Defined.

(** [adopt] under a new name makes a new object and touches no other: the
    reference it returns pointed to nothing before, the watchdog behind it
    carries the name and the given threshold and is inactive, so it does not
    bark at any time; every object of the store and every entry of the
    registry is as before, and the new name is the last key that [__iter__]
    yields. *)
Theorem adopt_new_watchdog (s : World) (nm : string) (t : option Q)
    (n : option Z) :
  dict_get nm (dogs s) = None ->
  is_Some t \/ is_Some n ->
  exists (r : ref) (w0 : Watchdog) (s' : World),
    DogHouse.adopt nm t n s = (Return r, s')
    /\ store s !! r = None
    /\ store s' !! r = Some w0
    /\ name w0 = nm /\ active w0 = false
    /\ (forall now : Q, barks w0 now = false)
    /\ (forall (r' : ref) (w : Watchdog),
           store s !! r' = Some w -> r' <> r /\ store s' !! r' = Some w)
    /\ (forall k : string, k <> nm -> dict_get k (dogs s') = dict_get k (dogs s))
    /\ DogHouse.__iter__ s' = (Return ((dogs s).*1 ++ [nm]), s')
    /\ DogHouse.__len__ s' = (Return (S (length (dogs s))), s').
Proof.
  intros H Hp.
  destruct (adopt_new s nm t n H Hp) as (w0 & s' & E & Hs & Hd & Hn & Ha & _).
  exists (length (store s)), w0, s'. split; [exact E|].
  split; [apply lookup_ge_None; lia|].
  split; [rewrite Hs; apply lookup_new|].
  do 2 (split; [assumption|]).
  split.
  { intros now. unfold barks. rewrite should_bark_inactive by exact Ha.
    reflexivity. }
  split.
  { intros r' w Hr'. pose proof (lookup_lt_Some _ _ _ Hr') as Hlt.
    split; [lia|]. rewrite Hs, lookup_app_l by exact Hlt. exact Hr'. }
  split.
  { intros k Hk. rewrite Hd, dict_get_app.
    destruct (dict_get k (dogs s)); [reflexivity|]. simpl.
    destruct (String.eqb nm k) eqn:Eq; [|reflexivity].
    apply String.eqb_eq in Eq. congruence. }
  unfold DogHouse.__iter__, DogHouse.__len__, gets. rewrite Hd.
  rewrite fmap_app, length_app. simpl.
  split; [reflexivity|]. do 2 f_equal. lia.
Qed.

Lemma adopt_new_watchdog_witness :
  let s := mkWorld example_clock 0 [AnEventDog (EventDog_.init "rex" 3)]
                   [("rex", 0%nat)] ResetNone [] in
  exists (r : ref) (w0 : Watchdog) (s' : World),
    DogHouse.adopt "fido" (Some 5%Q) None s = (Return r, s')
    /\ store s !! r = None
    /\ store s' !! r = Some w0
    /\ name w0 = "fido" /\ active w0 = false
    /\ (forall now : Q, barks w0 now = false)
    /\ (forall (r' : ref) (w : Watchdog),
           store s !! r' = Some w -> r' <> r /\ store s' !! r' = Some w)
    /\ (forall k : string,
           k <> "fido" -> dict_get k (dogs s') = dict_get k (dogs s))
    /\ DogHouse.__iter__ s' = (Return ((dogs s).*1 ++ ["fido"]), s')
    /\ DogHouse.__len__ s' = (Return (S (length (dogs s))), s').
Proof.
  intros s. apply (adopt_new_watchdog s "fido" (Some 5%Q) None).
  - reflexivity.
  - left. eexists. reflexivity.
Defined.

(** ** Bulk update and construction with keywords *)

Lemma update_fold_get (k : string) (l : list (string * ref)) (d : dict) :
  dict_get k (fold_left (fun d kv => dict_set kv.1 kv.2 d) l d)
  = match dict_get k (rev l) with
    | Some v => Some v
    | None => dict_get k d
    end.
Proof.
  revert d. induction l as [|[k0 v0] l IH]; intros d; [reflexivity|].
  cbn [fold_left rev fst snd]. rewrite IH, dict_get_app.
  destruct (dict_get k (rev l)); [reflexivity|]. simpl.
  destruct (String.eqb k0 k) eqn:E.
  - apply String.eqb_eq in E. subst k0. apply dict_get_set_eq.
  - apply String.eqb_neq in E. apply dict_get_set_ne, E.
Qed.

Lemma dict_set_keys (k : string) (v : ref) (d : dict) :
  exists added : list string, (dict_set k v d).*1 = d.*1 ++ added.
Proof.
  destruct (dict_get k d) eqn:E.
  - exists []. rewrite app_nil_r. apply dict_set_present. congruence.
  - exists [k]. rewrite (dict_set_absent k v d E), fmap_app. reflexivity.
Qed.

Lemma update_fold_keys (l : list (string * ref)) (d : dict) :
  exists added : list string,
    (fold_left (fun d kv => dict_set kv.1 kv.2 d) l d).*1 = d.*1 ++ added.
Proof.
  revert d. induction l as [|[k0 v0] l IH]; intros d; simpl.
  - exists []. rewrite app_nil_r. reflexivity.
  - destruct (IH (dict_set k0 v0 d)) as (a2 & ->).
    destruct (dict_set_keys k0 v0 d) as (a1 & ->).
    exists (a1 ++ a2). rewrite app_assoc. reflexivity.
Qed.


(** [update(other, **kwargs)] with pairs: the registry afterwards maps a key
    to the value of the last pair given for it, keyword arguments after
    [other], and to its old value if no pair names it. Keys go in as given,
    without [_keytransform]; the old keys keep their places and new keys
    follow them. Nothing is logged and no object changes. *)
Theorem update_effect (s : World) (other kwargs : list (string * ref)) :
  exists (s' : World) (added : list string),
    DogHouse.update other kwargs s = (Return tt, s')
    /\ trace s' = trace s /\ store s' = store s /\ reads s' = reads s
    /\ (dogs s').*1 = (dogs s).*1 ++ added
    /\ forall k : string,
         dict_get k (dogs s')
         = match dict_get k (rev (other ++ kwargs)) with
           | Some v => Some v
           | None => dict_get k (dogs s)
           end.
Proof.
  destruct (update_fold_keys (other ++ kwargs) (dogs s)) as (added & Hk).
  eexists _, added. split; [reflexivity|]. simpl.
  do 3 (split; [reflexivity|]). split; [exact Hk|].
  intros k. apply update_fold_get.
Qed.







(** ** Watchdogs, continued *)

Lemma send_to_home_by_identity (t : Q) (w1 w2 : Watchdog) :
  name w1 = name w2 -> policy w1 = policy w2 ->
  send_to_home t w1 = send_to_home t w2.
Proof.
  destruct w1 as [[n1 a1 p1 l1]|[n1 a1 p1 c1]],
           w2 as [[n2 a2 p2 l2]|[n2 a2 p2 c2]];
    simpl; intros -> [= ->]; reflexivity.
Qed.

Lemma do_call_identity (c : call) (w : Watchdog) :
  name (do_call c w) = name w /\ policy (do_call c w) = policy w.
Proof. destruct c, w; split; reflexivity. Qed.

(** No method changes the name, the class or the threshold of a watchdog,
    and [send_to_home] overwrites everything else: after any sequence of
    calls, activating at [t] gives the watchdog that activating at [t] would
    have given at the start. *)
Theorem calls_keep_identity (cs : list call) (w : Watchdog) :
  name (do_calls cs w) = name w
  /\ policy (do_calls cs w) = policy w
  /\ forall t : Q, send_to_home t (do_calls cs w) = send_to_home t w.
Proof.
  assert (H : name (do_calls cs w) = name w
              /\ policy (do_calls cs w) = policy w).
  { unfold do_calls. revert w.
    induction cs as [|c cs IH]; intros w; simpl; [split; reflexivity|].
    destruct (IH (do_call c w)) as [-> ->]. apply do_call_identity. }
  destruct H as [Hn Hp]. repeat split; [exact Hn | exact Hp |].
  intros t. apply send_to_home_by_identity; assumption.
Qed.

Lemma eventdog_calls_counter (cs : list call) (d0 : EventDog) :
  (0 <= current_events d0)%Z ->
  exists d : EventDog,
    do_calls cs (AnEventDog d0) = AnEventDog d
    /\ max_events d = max_events d0
    /\ (0 <= current_events d
        <= current_events d0 + Z.of_nat (starve_count cs))%Z.
Proof.
  unfold do_calls. revert d0.
  induction cs as [|c cs IH]; intros d0 H0.
  - exists d0. simpl. repeat split; lia.
  - destruct c;
      cbn [fold_left do_call starve_count feed starve send_to_kennel
           send_to_home set_active].
    + destruct (IH (EventDog_.feed d0)) as (d & -> & Hm & Hc);
        [simpl; lia|].
      exists d. simpl in Hm, Hc. repeat split; [exact Hm | lia | lia].
    + destruct (IH (EventDog_.starve d0)) as (d & -> & Hm & Hc);
        [simpl; lia|].
      exists d. simpl in Hm, Hc. repeat split; [exact Hm | lia | lia].
    + destruct (IH (EventDog_.set_active false d0)) as (d & -> & Hm & Hc);
        [simpl; lia|].
      exists d. simpl in Hm, Hc. repeat split; [exact Hm | lia | lia].
    + destruct (IH (EventDog_.set_active true (EventDog_.feed d0)))
        as (d & -> & Hm & Hc); [simpl; lia|].
      exists d. simpl in Hm, Hc. repeat split; [exact Hm | lia | lia].
Qed.

(** An [EventDog] raises no false alarm: whatever is called on it after its
    creation, its counter stays between 0 and the number of [starve] calls
    made, and its threshold stays as given; so when it barks, more than
    [max_events] calls of [starve] have been made. *)
Theorem eventdog_no_false_alarm (nm : string) (n : Z) (cs : list call) (now : Q) :
  exists d : EventDog,
    do_calls cs (AnEventDog (EventDog_.init nm n)) = AnEventDog d
    /\ max_events d = n
    /\ (0 <= current_events d <= Z.of_nat (starve_count cs))%Z
    /\ (barks (AnEventDog d) now = true -> (n < Z.of_nat (starve_count cs))%Z).
Proof.
  destruct (eventdog_calls_counter cs (EventDog_.init nm n))
    as (d & E & Hm & Hc); [simpl; lia|].
  simpl in Hm, Hc. exists d. split; [exact E|]. split; [exact Hm|].
  split; [lia|].
  unfold barks. simpl. unfold EventDog_.should_bark.
  destruct (ed_active d); simpl; [|discriminate].
  rewrite Hm, Z.gtb_ltb. intros Hb. apply Z.ltb_lt in Hb. lia.
Qed.

Lemma eventdog_no_false_alarm_witness :
  exists d : EventDog,
    do_calls [SendToHome 0; Starve; Feed 1; Starve; Starve]
             (AnEventDog (EventDog_.init "errors" 1)) = AnEventDog d
    /\ max_events d = 1%Z
    /\ (0 <= current_events d <= 3)%Z
    /\ (1 < 3)%Z.
Proof.
  destruct (eventdog_no_false_alarm "errors" 1
              [SendToHome 0; Starve; Feed 1; Starve; Starve] 0)
    as (d & E & Hm & Hc & Hb).
  exists d. split; [exact E|]. split; [exact Hm|]. split; [exact Hc|].
  apply Hb. injection E as <-. reflexivity.
Defined.

Lemma barks_later (w : Watchdog) (now now' : Q) :
  barks w now = true -> (now <= now')%Q -> barks w now' = true.
Proof.
  destruct w as [d|d]; unfold barks; cbn [should_bark]; [|tauto].
  unfold TimeDog_.should_bark.
  destruct (td_active d); cbn [truthy]; [|discriminate].
  intros H Hle. unfold fsub in *.
  apply (double_gt_mono (now - last_feed d) (now' - last_feed d)); [lra|].
  exact H.
Qed.

(** Time only makes things worse: a watchdog that barks at [now] barks at
    every later time as long as no method is called on it, and whether an
    [EventDog] barks does not depend on the time at all. *)
Theorem bark_persists (w : Watchdog) (now now' : Q) :
  (barks w now = true -> (now <= now')%Q -> barks w now' = true)
  /\ (forall d : EventDog,
         w = AnEventDog d -> should_bark w now = should_bark w now').
Proof.
  split; [apply barks_later | intros d ->; reflexivity].
Qed.

Lemma bark_persists_witness :
  barks (ATimeDog (mkTimeDog "heartbeat" true 10 0)) 12 = true.
Proof.
  apply (proj1 (bark_persists (ATimeDog (mkTimeDog "heartbeat" true 10 0))
                              11 12)).
  - reflexivity.
  - vm_compute. discriminate.
Defined.

(** [feed] brings a watchdog back to health and changes neither the flag
    nor the name nor the threshold. A [TimeDog] fed at [t] does not bark at
    [t] itself if its timeout is not negative, and, if its timeout is a
    double, at no [now <= t + timeout_s]; an [EventDog] with a threshold that
    is not negative does not bark at all until it is starved again. Of two
    feeds the later one counts. *)
Theorem feed_recovers (w : Watchdog) (t : Q) :
  active (feed t w) = active w
  /\ name (feed t w) = name w
  /\ policy (feed t w) = policy w
  /\ (forall t' : Q, feed t (feed t' w) = feed t w)
  /\ (forall d : TimeDog,
         w = ATimeDog d -> (0 <= timeout_s d)%Q ->
         barks (feed t w) t = false)
  /\ (forall (d : TimeDog) (now : Q),
         w = ATimeDog d -> representable (timeout_s d) ->
         (now <= t + timeout_s d)%Q ->
         barks (feed t w) now = false)
  /\ (forall (d : EventDog) (now : Q),
         w = AnEventDog d -> (0 <= max_events d)%Z ->
         barks (feed t w) now = false).
Proof.
  split; [apply active_feed|].
  split; [destruct w; reflexivity|]. split; [destruct w; reflexivity|].
  split; [intros t'; destruct w; reflexivity|]. split; [|split].
  - intros d -> Ht. unfold barks.
    cbn [feed should_bark]. unfold TimeDog_.should_bark, TimeDog_.feed.
    cbn [td_active timeout_s last_feed].
    destruct (td_active d); cbn [truthy]; [|reflexivity].
    rewrite fsub_diag. apply Qgtb_false. exact Ht.
  - intros d now -> Hrep Hnow. unfold barks.
    cbn [feed should_bark]. unfold TimeDog_.should_bark, TimeDog_.feed.
    cbn [td_active timeout_s last_feed].
    destruct (td_active d); cbn [truthy]; [|reflexivity].
    unfold fsub. apply double_gt_le_threshold; [exact Hrep | lra].
  - intros d now -> Hm. unfold barks. simpl. unfold EventDog_.should_bark.
    simpl. destruct (ed_active d); simpl; [|reflexivity].
    rewrite Z.gtb_ltb. apply Z.ltb_ge. exact Hm.
Qed.

Lemma feed_recovers_witness :
  barks (feed 100 (ATimeDog (mkTimeDog "heartbeat" true 10 0))) 100 = false
  /\ barks (feed 100 (ATimeDog (mkTimeDog "heartbeat" true 10 0))) 110 = false
  /\ barks (feed 100 (AnEventDog (mkEventDog "errors" true 3 9))) 110 = false.
Proof.
  destruct (feed_recovers (ATimeDog (mkTimeDog "heartbeat" true 10 0)) 100)
    as (_ & _ & _ & _ & H0 & Hb & _).
  destruct (feed_recovers (AnEventDog (mkEventDog "errors" true 3 9)) 100)
    as (_ & _ & _ & _ & _ & _ & He).
  split; [|split].
  - apply (H0 (mkTimeDog "heartbeat" true 10 0) eq_refl).
    vm_compute. discriminate.
  - apply (Hb (mkTimeDog "heartbeat" true 10 0) 110%Q eq_refl).
    + exists 10%Z, 0%Z. repeat split; vm_compute; congruence.
    + vm_compute. discriminate.
  - apply (He (mkEventDog "errors" true 3 9) 110%Q eq_refl). simpl. lia.
Defined.

(** ** Method calls on the store *)

Lemma touches_only_intro (r : ref) (w' : Watchdog) (s s0 : World) :
  store s0 = store s -> dogs s0 = dogs s -> trace s0 = trace s ->
  _reset_function s0 = _reset_function s ->
  touches_only r w' s (Return tt, set_store (<[r := w']> (store s)) s0).
Proof.
  intros Hs Hd Ht Hf. unfold touches_only. simpl.
  repeat split; try assumption.
  intros r' Hne. apply list_lookup_insert_ne. congruence.
Qed.

(** A method call on a watchdog changes that object and nothing else: the
    other objects, the registry and the trace are as before. [starve] and
    [send_to_kennel] never read the clock; [feed] and [send_to_home] read it
    once on a [TimeDog] and not at all on an [EventDog]. [should_bark]
    changes nothing. *)
Theorem method_calls_touch_only_self (s : World) (r : ref) (w : Watchdog) :
  store s !! r = Some w ->
  let now := clock s (reads s) in
  let reads_after := match w with
                     | ATimeDog _ => S (reads s)
                     | AnEventDog _ => reads s
                     end in
  touches_only r (starve w) s (Obj.starve r s)
  /\ touches_only r (send_to_kennel w) s (Obj.send_to_kennel r s)
  /\ touches_only r (feed now w) s (Obj.feed r s)
  /\ touches_only r (send_to_home now w) s (Obj.send_to_home r s)
  /\ reads (Obj.starve r s).2 = reads s
  /\ reads (Obj.send_to_kennel r s).2 = reads s
  /\ reads (Obj.feed r s).2 = reads_after
  /\ reads (Obj.send_to_home r s).2 = reads_after
  /\ forall t : Q, Obj.should_bark r t s = (Return (should_bark w t), s).
Proof.
  intros H now reads_after.
  rewrite (Obj_feed_spec s r w H), (Obj_send_to_home_spec s r w H).
  assert (Hst : Obj.starve r s
                = (Return tt, set_store (<[r := starve w]> (store s)) s)).
  { unfold Obj.starve. unfold_M. rewrite H. reflexivity. }
  assert (Hk : Obj.send_to_kennel r s
               = (Return tt,
                  set_store (<[r := send_to_kennel w]> (store s)) s)).
  { unfold Obj.send_to_kennel. unfold_M. rewrite H. reflexivity. }
  rewrite Hst, Hk.
  split; [apply touches_only_intro; reflexivity|].
  split; [apply touches_only_intro; reflexivity|].
  split; [apply touches_only_intro; destruct w; reflexivity|].
  split; [apply touches_only_intro; destruct w; reflexivity|].
  do 2 (split; [reflexivity|]).
  do 2 (split; [subst reads_after; destruct w; reflexivity|]).
  intros t. unfold Obj.should_bark. unfold_M. rewrite H. reflexivity.
Qed.

Lemma method_calls_touch_only_self_witness :
  let s := mkWorld example_clock 4
             [ATimeDog (mkTimeDog "heartbeat" true 10 0);
              AnEventDog (mkEventDog "errors" true 3 0)]
             [("heartbeat", 0%nat); ("errors", 1%nat)] ResetNone [] in
  touches_only 0%nat
    (send_to_home (example_clock 4) (ATimeDog (mkTimeDog "heartbeat" true 10 0)))
    s (Obj.send_to_home 0%nat s)
  /\ reads (Obj.send_to_home 0%nat s).2 = 5%nat
  /\ reads (Obj.send_to_home 1%nat s).2 = 4%nat.
Proof.
  intros s.
  destruct (method_calls_touch_only_self s 0%nat
              (ATimeDog (mkTimeDog "heartbeat" true 10 0)) eq_refl)
    as (_ & _ & _ & Hh & _ & _ & _ & Hr & _).
  destruct (method_calls_touch_only_self s 1%nat
              (AnEventDog (mkEventDog "errors" true 3 0)) eq_refl)
    as (_ & _ & _ & _ & _ & _ & _ & Hr' & _).
  split; [exact Hh|]. split; [exact Hr | exact Hr'].
Defined.

(** ** The sweep, continued *)

Lemma set_trace_nil (s : World) : set_trace (trace s ++ []) s = s.
Proof. unfold set_trace. rewrite app_nil_r. destruct s; reflexivity. Qed.

(** Whatever the registry holds, the loop ends in one of three ways: no
    entry barked; a value that is no watchdog was met before any entry
    barked; or one entry barked and was reported. *)
Lemma check_loop_outcome (now : Q) (items : list (string * ref)) (s : World) :
  exists (res : result unit) (evs : list event),
    DogHouse.check_loop now items s = (res, set_trace (trace s ++ evs) s)
    /\ ((res = Return tt /\ evs = []
         /\ Forall (quiet s now) items)
        \/ (res = Raise AttributeError /\ evs = [])
        \/ (res = Return tt
            /\ exists (nm : string) (r : ref) (w : Watchdog),
                 (nm, r) ∈ items /\ store s !! r = Some w
                 /\ barks w now = true /\ evs = report s nm r)).
Proof.
  induction items as [|[nm r] items IH].
  - exists (Return tt), []. rewrite set_trace_nil. split; [reflexivity|].
    left. repeat split. constructor.
  - destruct (store s !! r) as [w|] eqn:Hw.
    + destruct (barks w now) eqn:Hb.
      * exists (Return tt), (report s nm r).
        split; [apply (check_loop_bark now nm r items w s Hw Hb)|].
        right. right. split; [reflexivity|]. exists nm, r, w.
        repeat split; try assumption. apply elem_of_cons. left. reflexivity.
      * assert (Hq : Forall (quiet s now) [(nm, r)]).
        { constructor; [|constructor]. exists w. split; assumption. }
        destruct IH as (res & evs & E & Hcase).
        exists res, evs.
        split; [rewrite <- E; apply (check_loop_quiet now [(nm, r)] items s Hq)|].
        destruct Hcase as [(-> & -> & Hall)|[(-> & ->)|(-> & k & r' & w' & Hin & Hrest)]].
        -- left. repeat split. constructor; [|exact Hall].
           exists w. split; assumption.
        -- right. left. split; reflexivity.
        -- right. right. split; [reflexivity|]. exists k, r', w'.
           split; [apply elem_of_cons; right; exact Hin | exact Hrest].
    + exists (Raise AttributeError), []. rewrite set_trace_nil.
      split; [|right; left; split; reflexivity].
      simpl. unfold Obj.should_bark. unfold_M. rewrite Hw. reflexivity.
Qed.

(** *** With the callback as a parameter *)

Lemma DogHouse_check (s : World) :
  DogHouse.check s = Recovering.check call_reset_function s.
Proof. reflexivity. Qed.

Lemma Recovering_loop_quiet (call : ref -> M unit) (now : Q)
    (pre rest : list (string * ref)) (s : World) :
  Forall (quiet s now) pre ->
  Recovering.check_loop call now (pre ++ rest) s
  = Recovering.check_loop call now rest s.
Proof.
  induction 1 as [|[k r] pre (w & Hw & Hb) _ IH]; [reflexivity|].
  simpl in *. unfold Obj.should_bark. unfold_M. rewrite Hw.
  unfold barks in Hb. rewrite Hb. exact IH.
Qed.

Lemma Recovering_loop_bark (call : ref -> M unit) (now : Q) (nm : string)
    (r : ref) (post : list (string * ref)) (w : Watchdog) (s : World) :
  store s !! r = Some w -> barks w now = true ->
  Recovering.check_loop call now ((nm, r) :: post) s
  = if truth (_reset_function s) && callable (_reset_function s)
    then call r (set_trace
                   (trace s
                    ++ [Log ERROR ("Watchdog " ++ nm ++ " has starved!!!")]) s)
    else (Return tt,
          set_trace
            (trace s ++ [Log ERROR ("Watchdog " ++ nm ++ " has starved!!!")])
            s).
Proof.
  intros Hw Hb. simpl. unfold Obj.should_bark. unfold_M. rewrite Hw.
  unfold barks in Hb. rewrite Hb. simpl.
  destruct (truth (_reset_function s) && callable (_reset_function s));
    [|reflexivity].
  destruct (call r _) as [[[]|e] s']; reflexivity.
Qed.

Lemma Recovering_loop_stuck (call : ref -> M unit) (now : Q) (nm : string)
    (r : ref) (post : list (string * ref)) (s : World) :
  store s !! r = None ->
  Recovering.check_loop call now ((nm, r) :: post) s
  = (Raise AttributeError, s).
Proof.
  intros Hw. simpl. unfold Obj.should_bark. unfold_M. rewrite Hw. reflexivity.
Qed.

Lemma Recovering_loop_outcome (call : ref -> M unit) (now : Q)
    (items : list (string * ref)) (s : World) :
  exists pre rest : list (string * ref),
    items = pre ++ rest /\ Forall (quiet s now) pre
    /\ match rest with
       | [] => Recovering.check_loop call now items s = (Return tt, s)
       | (nm, r) :: _ =>
           match store s !! r with
           | None =>
               Recovering.check_loop call now items s
               = (Raise AttributeError, s)
           | Some w =>
               barks w now = true
               /\ Recovering.check_loop call now items s
                  = Recovering.check_loop call now rest s
           end
       end.
Proof.
  induction items as [|[nm r] items IH].
  - exists [], []. repeat split. constructor.
  - destruct (store s !! r) as [w|] eqn:Hw.
    + destruct (barks w now) eqn:Hb.
      * exists [], ((nm, r) :: items). split; [reflexivity|].
        split; [constructor|]. rewrite Hw. split; [exact Hb | reflexivity].
      * assert (Hq : Forall (quiet s now) [(nm, r)]).
        { constructor; [|constructor]. exists w. split; assumption. }
        destruct IH as (pre & rest & -> & Hpre & Hrest).
        exists ((nm, r) :: pre), rest. split; [reflexivity|].
        split; [constructor; [exists w; split; assumption | exact Hpre]|].
        pose proof (Recovering_loop_quiet call now [(nm, r)] (pre ++ rest)
                      s Hq) as Estep.
        simpl app in Estep. rewrite Estep.
        exact Hrest.
    + exists [], ((nm, r) :: items). split; [reflexivity|].
      split; [constructor|]. rewrite Hw.
      apply Recovering_loop_stuck, Hw.
Qed.

(** Whatever the registry holds and whatever the callback does, one pass of
    [check] is this: it reads the clock once and passes over the entries
    that do not bark at the time read, in their order, changing nothing. If
    none is left, it returns. If the first entry left is no watchdog, it
    raises [AttributeError]. Otherwise that entry barks: the pass logs one
    error with its name, and then, if the callback is true and callable,
    calls it with that watchdog as the last thing it does, so that the
    outcome of the pass is the outcome of the call, a raised exception
    included; if not, it returns. *)
Theorem check_outcome (call : ref -> M unit) (s : World) :
  let now := clock s (reads s) in
  exists pre rest : list (string * ref),
    dogs s = pre ++ rest /\ Forall (quiet s now) pre
    /\ match rest with
       | [] =>
           Recovering.check call s = (Return tt, set_reads (S (reads s)) s)
       | (nm, r) :: _ =>
           match store s !! r with
           | None =>
               Recovering.check call s
               = (Raise AttributeError, set_reads (S (reads s)) s)
           | Some w =>
               barks w now = true
               /\ Recovering.check call s
                  = if truth (_reset_function s)
                       && callable (_reset_function s)
                    then call r (reported s nm)
                    else (Return tt, reported s nm)
           end
       end.
Proof.
  intros now.
  destruct (Recovering_loop_outcome call now (dogs s)
              (set_reads (S (reads s)) s)) as (pre & rest & Hd & Hpre & Hrest).
  exists pre, rest. split; [exact Hd|]. split; [exact Hpre|].
  change (Recovering.check call s)
    with (Recovering.check_loop call now (dogs s) (set_reads (S (reads s)) s)).
  destruct rest as [|[nm r] rest]; [exact Hrest|].
  change (store (set_reads (S (reads s)) s)) with (store s) in Hrest.
  destruct (store s !! r) as [w|] eqn:Hw; [|exact Hrest].
  destruct Hrest as [Hb ->]. split; [exact Hb|].
  apply (Recovering_loop_bark call now nm r rest w
           (set_reads (S (reads s)) s) Hw Hb).
Qed.

(** A starved watchdog is reported again: if one pass of [check] reported
    the entry [(nm, r)], and the next pass starts with the watchdogs and the
    registry as they were (the callback, and whoever ran in between, has not
    fed, changed or removed anything) at a clock reading that is not
    earlier, then the next pass reports too, the same entry or one before it
    in the registry (a [TimeDog] that has run out of time in the meantime),
    and hands that watchdog to the callback. *)
Theorem check_reports_again (call : ref -> M unit) (s s2 : World)
    (pre post : list (string * ref)) (nm : string) (r : ref) (w : Watchdog) :
  dogs s = pre ++ (nm, r) :: post ->
  Forall (quiet s (clock s (reads s))) pre ->
  store s !! r = Some w ->
  barks w (clock s (reads s)) = true ->
  store s2 = store s ->
  dogs s2 = dogs s ->
  (clock s (reads s) <= clock s2 (reads s2))%Q ->
  exists (nm' : string) (r' : ref),
    (nm', r') ∈ pre ++ [(nm, r)]
    /\ Recovering.check call s2
       = if truth (_reset_function s2) && callable (_reset_function s2)
         then call r' (reported s2 nm')
         else (Return tt, reported s2 nm').
Proof.
  intros Hd Hpre Hw Hb Hs2 Hd2 Hclk.
  set (now2 := clock s2 (reads s2)).
  set (s3 := set_reads (S (reads s2)) s2).
  assert (Hb2 : barks w now2 = true) by (apply (barks_later w _ _ Hb Hclk)).
  change (Recovering.check call s2)
    with (Recovering.check_loop call now2 (dogs s2) s3).
  rewrite Hd2, Hd. clear Hd Hd2 Hb Hclk.
  assert (Hw3 : store s3 !! r = Some w) by (simpl; rewrite Hs2; exact Hw).
  assert (Hvalid : Forall (fun kv => is_Some (store s3 !! kv.2)) pre).
  { eapply Forall_impl; [exact Hpre|].
    intros kv (w' & Hw' & _). exists w'. simpl. rewrite Hs2. exact Hw'. }
  clear Hpre. induction Hvalid as [|[k0 r0] pre [w0 Hw0] _ IH].
  - exists nm, r. split; [apply elem_of_cons; left; reflexivity|].
    apply (Recovering_loop_bark call now2 nm r post w s3 Hw3 Hb2).
  - simpl in Hw0. destruct (barks w0 now2) eqn:Hb0.
    + exists k0, r0. split; [apply elem_of_cons; left; reflexivity|].
      apply (Recovering_loop_bark call now2 k0 r0 (pre ++ (nm, r) :: post)
               w0 s3 Hw0 Hb0).
    + destruct IH as (nm' & r' & Hin & E).
      exists nm', r'. split; [apply elem_of_cons; right; exact Hin|].
      rewrite <- E.
      apply (Recovering_loop_quiet call now2 [(k0, r0)]
               (pre ++ (nm, r) :: post) s3).
      constructor; [|constructor]. exists w0. split; assumption.
Qed.

Lemma check_reports_again_witness :
  let s := mkWorld example_clock 0
             [AnEventDog (mkEventDog "errors" true 3 0);
              ATimeDog (mkTimeDog "heartbeat" true 10 0)]
             [("errors", 0%nat); ("heartbeat", 1%nat)]
             (ResetObject true true) [] in
  let s2 := set_reads 7 s in
  exists (nm' : string) (r' : ref),
    (nm', r') ∈ [("errors", 0%nat)] ++ [("heartbeat", 1%nat)]
    /\ Recovering.check Obj.feed s2
       = if truth (_reset_function s2) && callable (_reset_function s2)
         then Obj.feed r' (reported s2 nm')
         else (Return tt, reported s2 nm').
Proof.
  intros s s2.
  apply (check_reports_again Obj.feed s s2 [("errors", 0%nat)] []
           "heartbeat" 1%nat (ATimeDog (mkTimeDog "heartbeat" true 10 0))).
  - reflexivity.
  - constructor; [|constructor].
    exists (AnEventDog (mkEventDog "errors" true 3 0)). split; reflexivity.
  - reflexivity.
  - reflexivity.
  - reflexivity.
  - reflexivity.
  - vm_compute. discriminate.
Defined.

(** [check] never reports an inactive watchdog and never calls the callback
    with one: whatever else is registered, a watchdog whose flag is false is
    passed over, at any time. *)
Theorem check_skips_inactive (s : World) (r : ref) (w : Watchdog) :
  store s !! r = Some w ->
  active w = false ->
  exists (res : result unit) (evs : list event),
    DogHouse.check s = (res, set_trace (trace s ++ evs)
                               (set_reads (S (reads s)) s))
    /\ (evs = []
        \/ exists (nm : string) (r' : ref),
             (nm, r') ∈ dogs s /\ r' <> r /\ evs = report s nm r').
Proof.
  intros Hw Ha.
  destruct (check_loop_outcome (clock s (reads s)) (dogs s)
              (set_reads (S (reads s)) s)) as (res & evs & E & Hcase).
  exists res, evs. split; [exact E|].
  destruct Hcase
    as [(_ & -> & _)|[(_ & ->)|(_ & k & r' & w' & Hin & Hw' & Hb & ->)]];
    [left; reflexivity | left; reflexivity |].
  right. exists k, r'. split; [exact Hin|]. split; [|reflexivity].
  intros ->. simpl in Hw'. rewrite Hw in Hw'. injection Hw' as <-.
  unfold barks in Hb. rewrite (should_bark_inactive w _ Ha) in Hb.
  discriminate.
Qed.

Lemma check_skips_inactive_witness :
  let s := (Obj.send_to_kennel 0%nat
              (mkWorld (fun _ => 50%Q) 0
                 [ATimeDog (mkTimeDog "heartbeat" true 10 0);
                  AnEventDog (mkEventDog "errors" true 3 5)]
                 [("heartbeat", 0%nat); ("errors", 1%nat)]
                 (ResetObject true true) [])).2 in
  exists (res : result unit) (evs : list event),
    DogHouse.check s = (res, set_trace (trace s ++ evs)
                               (set_reads (S (reads s)) s))
    /\ (evs = []
        \/ exists (nm : string) (r' : ref),
             (nm, r') ∈ dogs s /\ r' <> 0%nat /\ evs = report s nm r').
Proof.
  intros s.
  apply (check_skips_inactive s 0%nat
           (ATimeDog (mkTimeDog "heartbeat" false 10 0))); reflexivity.
Defined.

(** ** Adoption and the recovery callback *)

Lemma warned_trace (s : World) :
  trace (warned s)
  = trace s ++ (if is_None (_reset_function s)
                   || negb (callable (_reset_function s))
                then [Log WARNING "No reset function is set"] else []).
Proof.
  unfold warned.
  destruct (is_None (_reset_function s) || negb (callable (_reset_function s)));
    simpl; [reflexivity | rewrite app_nil_r; reflexivity].
Qed.

(** A missing recovery callback costs [adopt] a warning and nothing else:
    with any other object as [reset_function] the call returns or raises the
    same, and leaves the same registry, objects and clock. The warning goes
    out on every call, first, exactly when the callback is [None] or not
    callable; whatever else [adopt] logs is at debug level. *)
Theorem adopt_callback_only_warns (s : World) (nm : string) (t : option Q)
    (n : option Z) (f2 : reset_object) :
  let s2 := mkWorld (clock s) (reads s) (store s) (dogs s) f2 (trace s) in
  let out := DogHouse.adopt nm t n s in
  let out2 := DogHouse.adopt nm t n s2 in
  out.1 = out2.1
  /\ dogs out.2 = dogs out2.2 /\ store out.2 = store out2.2
  /\ reads out.2 = reads out2.2
  /\ exists evs : list event,
       trace out.2
       = trace s
         ++ (if is_None (_reset_function s)
                || negb (callable (_reset_function s))
             then [Log WARNING "No reset function is set"] else [])
         ++ evs
       /\ Forall (fun e => exists msg : string, e = Log DEBUG msg) evs.
Proof.
  intros s2 out out2. subst out out2.
  assert (Hd2 : dogs s2 = dogs s) by reflexivity.
  destruct (dict_get nm (dogs s)) as [w|] eqn:E.
  - rewrite (adopt_registered s nm t n w E).
    rewrite (adopt_registered s2 nm t n w E). simpl.
    destruct (warned_fields s) as (_ & -> & -> & -> & _).
    destruct (warned_fields s2) as (_ & -> & -> & -> & _).
    do 4 (split; [reflexivity|]).
    eexists. rewrite warned_trace, <- app_assoc. split; [reflexivity|].
    constructor; [eexists; reflexivity | constructor].
  - destruct t as [q|]; [|destruct n as [m|]].
    + rewrite (adopt_new_timedog s nm q n E).
      rewrite (adopt_new_timedog s2 nm q n E). simpl.
      do 4 (split; [reflexivity|]).
      eexists. rewrite warned_trace, <- app_assoc. split; [reflexivity|].
      constructor; [eexists; reflexivity | constructor].
    + rewrite (adopt_new_eventdog s nm m E).
      rewrite (adopt_new_eventdog s2 nm m E). simpl.
      do 4 (split; [reflexivity|]).
      eexists. rewrite warned_trace, <- app_assoc. split; [reflexivity|].
      constructor; [eexists; reflexivity | constructor].
    + rewrite (adopt_no_policy s nm E), (adopt_no_policy s2 nm E). simpl.
      destruct (warned_fields s) as (_ & -> & -> & -> & _).
      destruct (warned_fields s2) as (_ & -> & -> & -> & _).
      do 4 (split; [reflexivity|]).
      exists []. rewrite warned_trace, app_nil_r. split; [reflexivity|].
      constructor.
Qed.
